(** * qwen-chat backend: response cache, tool-call markup and the generation loop

    A shallow embedding of [backend/main.py]:
    - [ResponseCache] (class [ResponseCache], lines 122-154),
    - [parse_tool_calls] (lines 439-464),
    - the streaming loop of [stream_ollama_response] (lines 749-964).

    Python [str] values are lists of characters.  The code under study
    compares characters, and lower-cases and strips texts; characters
    are [ascii], the code points below 256, on which [str.lower] and
    [str.isspace] are modelled as Python has them.
    Clock readings ([time.time()]) are integers: only their order and
    their differences are used. *)

From Stdlib Require Import String Ascii List ZArith Lia Bool Arith Sorted.
Import ListNotations.

Open Scope list_scope.

(** ** Strings *)

Definition str := list ascii.

(** A Python string literal. *)
Definition lit (s : string) : str := list_ascii_of_string s.

Fixpoint str_eqb (a b : str) : bool :=
  match a, b with
  | [], [] => true
  | x :: a', y :: b' => Ascii.eqb x y && str_eqb a' b'
  | _, _ => false
  end.

(** [s.startswith(p)] *)
Fixpoint starts_with (p s : str) : bool :=
  match p, s with
  | [], _ => true
  | x :: p', y :: s' => Ascii.eqb x y && starts_with p' s'
  | _ :: _, [] => false
  end.

(** [p in s] *)
Fixpoint contains (p s : str) : bool :=
  starts_with p s ||
  match s with
  | [] => false
  | _ :: s' => contains p s'
  end.

(** [s.find(p)], with [None] for [-1]. *)
Fixpoint find (p s : str) : option nat :=
  if starts_with p s then Some 0
  else match s with
       | [] => None
       | _ :: s' => option_map S (find p s')
       end.

(** ** The response cache *)

Record ChatMessage := { role : str; content : str }.

Module ResponseCache.

(** [self.cache : Dict[str, tuple[str, float]]].  A Python dict iterates
    in insertion order, and [min] returns the first minimal element, so
    the order of the entries is part of the model. *)
Definition entry := (str * (str * Z))%type.
Definition dict := list entry.

Definition keys (d : dict) : list str := map fst d.

(** [d[k]] / [k in d] *)
Fixpoint dict_get (k : str) (d : dict) : option (str * Z) :=
  match d with
  | [] => None
  | (k', v) :: d' => if str_eqb k k' then Some v else dict_get k d'
  end.

(** [del d[k]] *)
Fixpoint dict_del (k : str) (d : dict) : dict :=
  match d with
  | [] => []
  | (k', v) :: d' => if str_eqb k k' then d' else (k', v) :: dict_del k d'
  end.

(** [d[k] = v]: an existing key keeps its position, a new key goes last. *)
Fixpoint dict_set (k : str) (v : str * Z) (d : dict) : dict :=
  match d with
  | [] => [(k, v)]
  | (k', v') :: d' =>
      if str_eqb k k' then (k, v) :: d' else (k', v') :: dict_set k v d'
  end.

(** The loop of [min(iterable, key=...)]: the running best is replaced
    only by a strictly smaller candidate. *)
Fixpoint min_from (best : str * Z) (d : dict) : str * Z :=
  match d with
  | [] => best
  | (k, (_, t)) :: d' =>
      min_from (if (t <? snd best)%Z then (k, t) else best) d'
  end.

(** [min(self.cache.keys(), key=lambda k: self.cache[k][1])];
    [None] is the [ValueError] of [min] on an empty sequence. *)
Definition oldest_key (d : dict) : option str :=
  match d with
  | [] => None
  | (k, (_, t)) :: d' => Some (fst (min_from (k, t) d'))
  end.

Record t := { cache : dict; max_size : Z; ttl_seconds : Z }.

Definition with_cache (c : t) (d : dict) : t :=
  {| cache := d; max_size := max_size c; ttl_seconds := ttl_seconds c |}.

(** [ResponseCache(max_size, ttl_seconds)] *)
Definition init (max_size ttl_seconds : Z) : t :=
  {| cache := []; max_size := max_size; ttl_seconds := ttl_seconds |}.

(** A cache within its capacity, with one entry per key. *)
Definition fits (c : t) : Prop :=
  NoDup (keys (cache c)) /\ (Z.of_nat (length (cache c)) <= max_size c)%Z.

Section WithHash.

(** [hashlib.md5(s.encode()).hexdigest()] *)
Variable md5_hexdigest : str -> str.

(** [messages[-3:] if len(messages) >= 3 else messages] *)
Definition recent_messages (messages : list ChatMessage) : list ChatMessage :=
  if 3 <=? length messages
  then skipn (length messages - 3) messages
  else messages.

(** The join, without separator, of [f'{m.role}:{m.content}'] over
    [recent_messages]. *)
Definition key_content (messages : list ChatMessage) : str :=
  concat (map (fun m => role m ++ lit ":" ++ content m)
              (recent_messages messages)).

Definition _get_cache_key (messages : list ChatMessage) : str :=
  md5_hexdigest (key_content messages).

(** [get], at clock reading [now]: the response if any, and the cache
    afterwards (an expired entry is deleted). *)
Definition get (now : Z) (messages : list ChatMessage) (c : t)
  : option str * t :=
  let key := _get_cache_key messages in
  match dict_get key (cache c) with
  | Some (response, timestamp) =>
      if (now - timestamp <? ttl_seconds c)%Z
      then (Some response, c)
      else (None, with_cache c (dict_del key (cache c)))
  | None => (None, c)
  end.

(** [set], at clock reading [now]; [None] when [min] raises. *)
Definition set (now : Z) (messages : list ChatMessage) (response : str)
  (c : t) : option t :=
  let key := _get_cache_key messages in
  if (max_size c <=? Z.of_nat (length (cache c)))%Z
  then match oldest_key (cache c) with
       | None => None
       | Some oldest =>
           Some (with_cache c
                   (dict_set key (response, now) (dict_del oldest (cache c))))
       end
  else Some (with_cache c (dict_set key (response, now) (cache c))).

(** A store request: clock reading, message window, response. *)
Definition store := (Z * list ChatMessage * str)%type.

Definition store_time (s : store) : Z := fst (fst s).
Definition store_key (s : store) : str := _get_cache_key (snd (fst s)).
Definition store_entry (s : store) : entry := (store_key s, (snd s, store_time s)).

(** One call of [set]; when it raises, the cache object is left as it was. *)
Definition do_store (c : t) (s : store) : t :=
  match set (store_time s) (snd (fst s)) (snd s) c with
  | Some c' => c'
  | None => c
  end.

Definition run_stores (c : t) (ops : list store) : t := fold_left do_store ops c.

End WithHash.

End ResponseCache.

(** ** Inline tool-call markup *)

Definition dquote : ascii := "034"%char.
Definition newline : ascii := "010"%char.

(** ['<tool_call'] and ['</tool_call>'], the two markers the streaming
    loop looks for. *)
Definition TOOL_OPEN : str := lit "<tool_call".
Definition TOOL_CLOSE : str := lit "</tool_call>".

(** The literal parts of the pattern of [parse_tool_calls] around the
    tool name: [<tool_call name=] with the opening quote, and the closing
    quote with [>]. *)
Definition NAME_OPEN : str := lit "<tool_call name=" ++ [dquote].
Definition NAME_CLOSE : str := [dquote; ">"%char].

(** The text of a call in the documented format,
    [<tool_call name=Q tool_name Q> body </tool_call>] (without the
    spaces, Q the double quote). *)
Definition tool_call_tag (tool_name body : str) : str :=
  NAME_OPEN ++ tool_name ++ NAME_CLOSE ++ body ++ TOOL_CLOSE.

(** A name the pattern of [parse_tool_calls] can capture, and a body
    that ends where the tag ends. *)
Definition tool_name_ok (tool_name : str) : Prop :=
  tool_name <> [] /\ ~ In dquote tool_name.

Definition body_ok (body : str) : Prop := contains TOOL_CLOSE body = false.


Definition nonempty (s : str) : bool :=
  match s with [] => false | _ :: _ => true end.

(** The longest prefix of [s] without the character [c]: what a greedy
    [[^c]*] takes. *)
Fixpoint run_without (c : ascii) (s : str) : str :=
  match s with
  | [] => []
  | x :: s' => if Ascii.eqb x c then [] else x :: run_without c s'
  end.

(** [str.isspace] on the code points below 256. *)
Definition is_space (c : ascii) : bool :=
  let n := nat_of_ascii c in
  ((9 <=? n) && (n <=? 13)) || ((28 <=? n) && (n <=? 32))
  || (n =? 133) || (n =? 160).

Fixpoint lstrip (s : str) : str :=
  match s with
  | [] => []
  | c :: s' => if is_space c then lstrip s' else s
  end.

Definition rstrip (s : str) : str := rev (lstrip (rev s)).

(** [s.strip()] *)
Definition strip (s : str) : str := rstrip (lstrip s).

(** One attempt of the pattern of [parse_tool_calls] (DOTALL),
    [<tool_call name=Q([^Q]+)Q>(.*?)</tool_call>] with Q the double
    quote, at the start of [s]: group 1, group 2 and the length of
    group 0.  The greedy group 1 can only end at the first quote, where
    the quote and [>] must follow; the lazy group 2 ends at the first
    closing marker. *)
Definition match_tool_call (s : str) : option (str * str * nat) :=
  if starts_with NAME_OPEN s then
    let s1 := skipn (length NAME_OPEN) s in
    let tool_name := run_without dquote s1 in
    let s2 := skipn (length tool_name) s1 in
    if nonempty tool_name && starts_with NAME_CLOSE s2 then
      let s3 := skipn (length NAME_CLOSE) s2 in
      match find TOOL_CLOSE s3 with
      | Some k =>
          Some (tool_name, firstn k s3,
                length NAME_OPEN + length tool_name + length NAME_CLOSE
                + k + length TOOL_CLOSE)
      | None => None
      end
    else None
  else None.

(** [re.finditer(pattern, text, re.DOTALL)]: the matches from left to
    right, each as (group 1, group 2, group 0).  After a match the scan
    resumes at its end: [skip] counts the characters of the last match
    that are still to be passed over. *)
Fixpoint finditer (skip : nat) (s : str) : list (str * str * str) :=
  match s with
  | [] => []
  | _ :: s' =>
      match skip with
      | S n => finditer n s'
      | O =>
          match match_tool_call s with
          | Some (tool_name, args_str, len) =>
              (tool_name, args_str, firstn len s) :: finditer (len - 1) s'
          | None => finditer 0 s'
          end
      end
  end.

(** One attempt of [<tool_call[^>]*>.*?</tool_call>] (DOTALL) at the
    start of [s]: the length of the match. *)
Definition match_tag (s : str) : option nat :=
  if starts_with TOOL_OPEN s then
    let s1 := skipn (length TOOL_OPEN) s in
    match find [">"%char] s1 with
    | Some j =>
        match find TOOL_CLOSE (skipn (S j) s1) with
        | Some k => Some (length TOOL_OPEN + S j + k + length TOOL_CLOSE)
        | None => None
        end
    | None => None
    end
  else None.

(** The [re.search] of line 841 (DOTALL): a lazy group 1, the tag
    pattern [<tool_call[^>]*>.*?</tool_call>] as group 2, a greedy group 3
    for the rest; the result is groups 1 and 3.  The lazy group 1 stops
    at the leftmost position where the tag pattern matches, and the
    greedy group 3 takes the rest. *)
Fixpoint search_tag (s : str) : option (str * str) :=
  match match_tag s with
  | Some n => Some ([], skipn n s)
  | None =>
      match s with
      | [] => None
      | c :: s' =>
          match search_tag s' with
          | Some (before_tool, after_tool) => Some (c :: before_tool, after_tool)
          | None => None
          end
      end
  end.

(** ** Events sent to the client *)

(** The payload of one [yield]: the content of the assistant message
    and the [done] flag. *)
Record Event := { ev_content : str; ev_done : bool }.

Definition passthrough (text : str) : Event :=
  {| ev_content := text; ev_done := false |}.

Definition done_data : Event := {| ev_content := []; ev_done := true |}.

Definition yield_text (text : str) : list Event :=
  if nonempty text then [passthrough text] else [].

(** The [while True] loop over [display_buffer] (lines 823-865): the
    events it yields and the buffer it leaves.  Each turn that does not
    break shortens the buffer, so [fuel] above its length is never used
    up ([None]). *)
Fixpoint demux (fuel : nat) (display_buffer : str) : option (list Event * str) :=
  match fuel with
  | O => None
  | S fuel' =>
      if negb (contains TOOL_OPEN display_buffer) then
        Some (yield_text display_buffer, [])
      else if contains TOOL_CLOSE display_buffer then
        match search_tag display_buffer with
        | Some (before_tool, after_tool) =>
            match demux fuel' after_tool with
            | Some (evs, buf) => Some (yield_text before_tool ++ evs, buf)
            | None => None
            end
        | None => Some ([], display_buffer)
        end
      else Some ([], display_buffer)
  end.

(** The same loop with the fuel it needs. *)
Definition process_buffer (display_buffer : str) : list Event * str :=
  match demux (S (length display_buffer)) display_buffer with
  | Some r => r
  | None => ([], display_buffer)
  end.

(** A passthrough event that may go out: not a completion, not empty,
    and without the opening marker. *)
Definition clean_event (e : Event) : Prop :=
  ev_done e = false /\ ev_content e <> []
  /\ contains TOOL_OPEN (ev_content e) = false.

(** What may stay in the buffer: nothing, or text with the opening
    marker in it. *)
Definition held (buf : str) : Prop :=
  buf = [] \/ contains TOOL_OPEN buf = true.

(** ** Collaborators

    The JSON codec of the Python library, the Ollama server, the MCP tool
    client, the template matcher and the clock are outside the file under
    study; the embedding is parametric in them. *)

Class Json := {
  JSON : Type;
  (** [json.loads]; [None] is [json.JSONDecodeError] *)
  json_loads : str -> option JSON;
  (** [json.dumps] *)
  json_dumps : JSON -> str
}.

Section Orchestrator.

Context {J : Json}.

(** An element of [message["tool_calls"]] in Ollama's own format:
    [tc["function"]["name"]] and [tc["function"]["arguments"]]. *)
Record StructuredCall := { fn_name : str; fn_arguments : JSON }.

(** The dicts built by [parse_tool_calls] and by lines 886-891; only the
    former carry ["raw_match"]. *)
Record ToolCall := { name : str; arguments : JSON; raw_match : option str }.

(** One entry of [formatted_messages]. *)
Record Message := {
  msg_role : str;
  msg_content : str;
  msg_tool_calls : list StructuredCall;
  msg_tool_name : option str
}.

(** One line of the streamed response, as the loop body tells them
    apart: a line that is blank after [strip], a line on which
    [json.loads] raises, or a decoded object with [message.content],
    [message.tool_calls] and [done]. *)
Inductive Line :=
| Blank
| Undecodable
| Data (content : str) (tool_calls : list StructuredCall) (done : bool).

(** One streamed response: its lines, and the error (if any) the
    transport raises once they are used up; [raise_for_status] failing is
    the case of no line at all. *)
Record Response := { resp_lines : list Line; resp_error : option str }.

(** What [await mcp_client.call_tool(...)] does: it returns a truthy
    result, returns a falsy one, or raises. *)
Inductive ToolOutcome :=
| Returned (result : JSON)
| ReturnedFalsy
| Raised (error : str).

Class Backend := {
  World : Type;
  (** the POST to [/api/chat] with the current [formatted_messages] *)
  ollama_chat : World -> list Message -> World * Response;
  call_tool : World -> str -> JSON -> World * ToolOutcome;
  (** [time.time()] *)
  clock : World -> Z;
  find_matching_template : str -> option str;
  md5_hexdigest : str -> str;
  system_content : list ChatMessage -> str
}.

Context {B : Backend}.

(** [parse_tool_calls] *)
Definition parse_tool_calls (text : str) : list ToolCall :=
  flat_map
    (fun m : str * str * str =>
       let '(tool_name, group2, group0) := m in
       let args_str := strip group2 in
       match json_loads args_str with
       | Some arguments =>
           [{| name := tool_name; arguments := arguments;
               raw_match := Some group0 |}]
       | None => []
       end)
    (finditer 0 text).

(** What [parse_tool_calls] makes of the match of a tag in the
    documented format. *)
Definition decoded (tool_name body : str) : list ToolCall :=
  match json_loads (strip body) with
  | Some arguments =>
      [{| name := tool_name; arguments := arguments;
          raw_match := Some (tool_call_tag tool_name body) |}]
  | None => []
  end.

(** The variables of one turn of the generation loop, and the events
    yielded during it, oldest first. *)
Record Round := {
  iteration_response : str;
  display_buffer : str;
  tool_calls_found : list StructuredCall;
  yielded : list Event
}.

Definition new_round : Round :=
  {| iteration_response := []; display_buffer := [];
     tool_calls_found := []; yielded := [] |}.

(** The [if content:] block (lines 817-865). *)
Definition feed (content : str) (r : Round) : Round :=
  let (evs, buf) := process_buffer (display_buffer r ++ content) in
  {| iteration_response := iteration_response r ++ content;
     display_buffer := buf;
     tool_calls_found := tool_calls_found r;
     yielded := yielded r ++ evs |}.

(** The [if done:] block (lines 867-878), up to its [break]. *)
Definition finish (r : Round) : Round :=
  if nonempty (display_buffer r)
     && negb (contains TOOL_OPEN (display_buffer r))
  then {| iteration_response := iteration_response r;
          display_buffer := display_buffer r;
          tool_calls_found := tool_calls_found r;
          yielded := yielded r ++ [passthrough (display_buffer r)] |}
  else r.

(** The state of a round between two lines. *)
Definition tidy (r : Round) : Prop :=
  Forall clean_event (yielded r) /\ held (display_buffer r).


(** The body of [async for line in response.aiter_lines()] on a decoded
    line, before the test of [done]. *)
Definition on_data (content : str) (tool_calls : list StructuredCall)
  (r : Round) : Round :=
  let r1 :=
    {| iteration_response := iteration_response r;
       display_buffer := display_buffer r;
       tool_calls_found := tool_calls_found r ++ tool_calls;
       yielded := yielded r |} in
  if nonempty content then feed content r1 else r1.

(** The [async for] loop; the flag tells whether it ended by the [break]
    of a [done] line. *)
Fixpoint read_lines (lines : list Line) (r : Round) : Round * bool :=
  match lines with
  | [] => (r, false)
  | Blank :: rest => read_lines rest r
  | Undecodable :: rest => read_lines rest r
  | Data content tool_calls done :: rest =>
      let r1 := on_data content tool_calls r in
      if done then (finish r1, true) else read_lines rest r1
  end.

(** The dict built from an element of [tool_calls_found] (lines 888-891). *)
Definition native_call (tc : StructuredCall) : ToolCall :=
  {| name := fn_name tc; arguments := fn_arguments tc; raw_match := None |}.

(** Lines 882-894. *)
Definition extract_tool_calls (r : Round) : list ToolCall :=
  match tool_calls_found r with
  | [] => parse_tool_calls (iteration_response r)
  | found => map native_call found
  end.

(** What the [async for] loop takes from the lines of a response: the
    contents and the structured calls of the decoded lines, up to the
    first [done] one. *)
Fixpoint fed_chunks (lines : list Line) : list str :=
  match lines with
  | [] => []
  | Data content _ done :: rest =>
      content :: (if done then [] else fed_chunks rest)
  | _ :: rest => fed_chunks rest
  end.

Fixpoint reported_calls (lines : list Line) : list StructuredCall :=
  match lines with
  | [] => []
  | Data _ tool_calls done :: rest =>
      tool_calls ++ (if done then [] else reported_calls rest)
  | _ :: rest => reported_calls rest
  end.

(** What the generator does that its environment can see, in order. *)
Inductive Action :=
| OpenRound (messages : list Message)
| Yield (e : Event)
| CallTool (tool_name : str) (arguments : JSON).

(** Readings of a trace: the rounds opened, the tool invocations, the
    events sent to the client, and what follows the [n]-th round opening. *)
Fixpoint rounds_opened (tr : list Action) : nat :=
  match tr with
  | [] => 0
  | OpenRound _ :: tr' => S (rounds_opened tr')
  | _ :: tr' => rounds_opened tr'
  end.

Fixpoint calls_made (tr : list Action) : list (str * JSON) :=
  match tr with
  | [] => []
  | CallTool tool_name arguments :: tr' => (tool_name, arguments) :: calls_made tr'
  | _ :: tr' => calls_made tr'
  end.

Fixpoint events (tr : list Action) : list Event :=
  match tr with
  | [] => []
  | Yield e :: tr' => e :: events tr'
  | _ :: tr' => events tr'
  end.

Fixpoint after_round (n : nat) (tr : list Action) : list Action :=
  match n, tr with
  | O, _ => tr
  | S _, [] => []
  | S n', OpenRound _ :: tr' => after_round n' tr'
  | S _, _ :: tr' => after_round n tr'
  end.

Definition assistant_tool_call (tool_name : str) (arguments : JSON) : Message :=
  {| msg_role := lit "assistant"; msg_content := [];
     msg_tool_calls := [{| fn_name := tool_name; fn_arguments := arguments |}];
     msg_tool_name := None |}.

(** The marker used as content when the result is falsy. *)
Definition TOOL_FAILED : str := lit "Tool execution failed".

Definition tool_result (tool_name : str) (content : str) : Message :=
  {| msg_role := lit "tool"; msg_content := content;
     msg_tool_calls := []; msg_tool_name := Some tool_name |}.

(** The [error_text] of line 940. *)
Definition error_text (tool_name error : str) : str :=
  [newline; newline] ++ lit "[Tool: " ++ tool_name
  ++ lit " encountered an error: " ++ error ++ lit "]" ++ [newline].

(** [for tool_call in tool_calls:] (lines 904-948). *)
Fixpoint execute_tools (tool_calls : list ToolCall)
  (formatted_messages : list Message) (w : World)
  : list Action * list Message * World :=
  match tool_calls with
  | [] => ([], formatted_messages, w)
  | tool_call :: rest =>
      let tool_name := name tool_call in
      let (w1, outcome) := call_tool w tool_name (arguments tool_call) in
      match outcome with
      | Returned result =>
          let '(tr, msgs, w2) :=
            execute_tools rest
              (formatted_messages
               ++ [assistant_tool_call tool_name (arguments tool_call);
                   tool_result tool_name (json_dumps result)]) w1 in
          (CallTool tool_name (arguments tool_call) :: tr, msgs, w2)
      | ReturnedFalsy =>
          let '(tr, msgs, w2) :=
            execute_tools rest
              (formatted_messages
               ++ [assistant_tool_call tool_name (arguments tool_call);
                   tool_result tool_name TOOL_FAILED]) w1 in
          (CallTool tool_name (arguments tool_call) :: tr, msgs, w2)
      | Raised error =>
          let '(tr, msgs, w2) := execute_tools rest formatted_messages w1 in
          (CallTool tool_name (arguments tool_call)
           :: Yield (passthrough (error_text tool_name error)) :: tr, msgs, w2)
      end
  end.

(** The outcomes of the invocations made by [execute_tools], in order. *)
Fixpoint outcomes (tool_calls : list ToolCall) (w : World) : list ToolOutcome :=
  match tool_calls with
  | [] => []
  | tool_call :: rest =>
      let (w1, outcome) := call_tool w (name tool_call) (arguments tool_call) in
      outcome :: outcomes rest w1
  end.

(** A response that streams without error and ends with at least one
    tool call to execute. *)
Definition requests_tools (response : Response) : Prop :=
  let (r, broke) := read_lines (resp_lines response) new_round in
  (if broke then None else resp_error response) = None
  /\ extract_tool_calls r <> [].

Definition max_tool_iterations : nat := 3.

Record LoopState := {
  formatted_messages : list Message;
  tool_iteration : nat;
  full_response : str
}.

(** How the [while] loop is left: normally (its condition fails, or
    [break]), by an exception, or not at all within the given fuel. *)
Inductive Exit :=
| Normal
| Exception (error : str)
| OutOfFuel.

(** What a run of the loop leaves: the actions in order, the loop
    variables, the environment, and the way out. *)
Record LoopResult := {
  trace : list Action;
  final_state : LoopState;
  final_world : World;
  exit : Exit
}.

(** [while tool_iteration < max_tool_iterations:] (lines 749-954). *)
Fixpoint generation_loop (fuel : nat) (st : LoopState) (w : World)
  : LoopResult :=
  match fuel with
  | O => {| trace := []; final_state := st; final_world := w;
            exit := OutOfFuel |}
  | S fuel' =>
      if tool_iteration st <? max_tool_iterations then
        let (w1, response) := ollama_chat w (formatted_messages st) in
        let (r, broke) := read_lines (resp_lines response) new_round in
        let st1 :=
          {| formatted_messages := formatted_messages st;
             tool_iteration := tool_iteration st;
             full_response := full_response st ++ iteration_response r |} in
        let tr1 := OpenRound (formatted_messages st) :: map Yield (yielded r) in
        match (if broke then None else resp_error response) with
        | Some error =>
            {| trace := tr1; final_state := st1; final_world := w1;
               exit := Exception error |}
        | None =>
            match extract_tool_calls r with
            | [] =>
                {| trace := tr1; final_state := st1; final_world := w1;
                   exit := Normal |}
            | tool_calls =>
                let '(tr2, msgs, w2) :=
                  execute_tools tool_calls (formatted_messages st) w1 in
                let st2 :=
                  {| formatted_messages := msgs;
                     tool_iteration := S (tool_iteration st);
                     full_response := full_response st1 |} in
                let rest := generation_loop fuel' st2 w2 in
                {| trace := tr1 ++ tr2 ++ trace rest;
                   final_state := final_state rest;
                   final_world := final_world rest;
                   exit := exit rest |}
            end
        end
      else {| trace := []; final_state := st; final_world := w;
              exit := Normal |}
  end.

(** [next((msg.content for msg in reversed(messages) if msg.role == 'user'), '')] *)
Definition latest_user_msg (messages : list ChatMessage) : str :=
  match filter (fun m => str_eqb (role m) (lit "user")) (rev messages) with
  | m :: _ => content m
  | [] => []
  end.

Definition error_msg (error : str) : Event :=
  {| ev_content := lit "I apologize, but I encountered an error: " ++ error;
     ev_done := true |}.

(** [type(e).__name__], a colon and [str(e)] for the exception that
    [min] raises on the keys of an empty dict (line 151). *)
Definition MIN_OF_EMPTY : str := lit "ValueError: min() arg is an empty sequence".

Definition initial_messages (messages : list ChatMessage) : list Message :=
  {| msg_role := lit "system"; msg_content := system_content messages;
     msg_tool_calls := []; msg_tool_name := None |}
  :: map (fun m => {| msg_role := role m; msg_content := content m;
                      msg_tool_calls := []; msg_tool_name := None |}) messages.

(** The [try] block of [stream_ollama_response] (lines 673-986) on the
    messages of the request, with the process-wide [response_cache]. *)
Definition stream_ollama_response (messages : list ChatMessage)
  (cache : ResponseCache.t) (w : World)
  : list Action * ResponseCache.t * World :=
  let user_msg := latest_user_msg messages in
  match find_matching_template user_msg with
  | Some (c :: template) =>
      ([Yield {| ev_content := lit "Here's what you asked for:"
                               ++ [newline; newline] ++ c :: template;
                 ev_done := true |}], cache, w)
  | _ =>
      let (cached, cache1) :=
        ResponseCache.get md5_hexdigest (clock w) messages cache in
      match cached with
      | Some (c :: cached_response) =>
          ([Yield {| ev_content := c :: cached_response; ev_done := true |}],
           cache1, w)
      | _ =>
          let st0 := {| formatted_messages := initial_messages messages;
                        tool_iteration := 0; full_response := [] |} in
          let run := generation_loop (S max_tool_iterations) st0 w in
          let w1 := final_world run in
          match exit run with
          | Normal =>
              if nonempty (full_response (final_state run))
                 && nonempty user_msg then
                match ResponseCache.set md5_hexdigest (clock w1) messages
                        (full_response (final_state run)) cache1 with
                | Some cache2 => (trace run ++ [Yield done_data], cache2, w1)
                | None =>
                    (trace run ++ [Yield done_data;
                                   Yield (error_msg MIN_OF_EMPTY)],
                     cache1, w1)
                end
              else (trace run ++ [Yield done_data], cache1, w1)
          | Exception error =>
              (trace run ++ [Yield (error_msg error)], cache1, w1)
          | OutOfFuel => (trace run, cache1, w1)
          end
      end
  end.

End Orchestrator.

Arguments max_tool_iterations : simpl never.

(** ** Instances used to run the model on concrete inputs *)

(** A decoder that accepts exactly the texts of the form [{...}]; it
    stands for [json.loads] where an example needs a body that decodes
    and one that does not. *)
Definition brace_loads (s : str) : option str :=
  match s, rev s with
  | "{"%char :: _, "}"%char :: _ => Some s
  | _, _ => None
  end.

Definition brace_json : Json :=
  {| JSON := str; json_loads := brace_loads; json_dumps := fun s => s |}.

(** A structured call without arguments. *)
Definition bare_call (tool_name : string) : @StructuredCall brace_json :=
  @Build_StructuredCall brace_json (lit tool_name) (lit "{}").

(** A server that asks for one tool call in every round, with tools that
    always succeed; no template, and a world that counts the rounds. *)
Definition nagging_backend : @Backend brace_json :=
  {| World := nat;
     ollama_chat := fun w _ =>
       (S w, {| resp_lines := [@Data brace_json [] [bare_call "ping"] true]; resp_error := None |});
     call_tool := fun w _ args => (w, Returned args);
     clock := fun w => Z.of_nat w;
     find_matching_template := fun _ => None;
     md5_hexdigest := fun s => s;
     system_content := fun _ => lit "system" |}.

(** A server that asks once for the tools [boom] and [void] and then
    answers in plain text; [boom] raises and [void] returns nothing. *)
Definition faulty_tools_backend : @Backend brace_json :=
  {| World := nat;
     ollama_chat := fun w _ =>
       (S w,
        match w with
        | O => {| resp_lines :=
                    [@Data brace_json []
                       [bare_call "boom"; bare_call "void"] true];
                  resp_error := None |}
        | S _ => {| resp_lines := [@Data brace_json (lit "done!") [] true];
                    resp_error := None |}
        end);
     call_tool := fun w tool_name _ =>
       if str_eqb tool_name (lit "boom")
       then (w, Raised (lit "timeout"))
       else (w, ReturnedFalsy);
     clock := fun w => Z.of_nat w;
     find_matching_template := fun _ => None;
     md5_hexdigest := fun s => s;
     system_content := fun _ => lit "system" |}.

(** The body [{Qa Q:1}] with Q the double quote. *)
Definition sample_body : str :=
  lit "{" ++ [dquote] ++ lit "a" ++ [dquote] ++ lit ":1}".

Definition empty_args : @JSON brace_json := lit "{}".

(** The loop variables with no message, no text and a given count. *)
Definition at_count (n : nat) : @LoopState brace_json :=
  {| formatted_messages := []; tool_iteration := n; full_response := [] |}.

Definition idle : @LoopState brace_json := at_count 0.

Definition faulty_calls : list (@ToolCall brace_json) :=
  [native_call (bare_call "boom"); native_call (bare_call "void")].

(** A server that answers [Hello] in two chunks and asks for no tool. *)
Definition plain_backend : @Backend brace_json :=
  {| World := nat;
     ollama_chat := fun w _ =>
       (S w, {| resp_lines := [@Data brace_json (lit "Hel") [] false;
                               @Data brace_json (lit "lo") [] true];
                resp_error := None |});
     call_tool := fun w _ args => (w, Returned args);
     clock := fun w => Z.of_nat w;
     find_matching_template := fun _ => None;
     md5_hexdigest := fun s => s;
     system_content := fun _ => lit "system" |}.

(** A hash that is the identity: the keys of the examples are the hashed
    texts themselves. *)
Definition plain_key (s : str) : str := s.

Definition user_says (text : string) : ChatMessage :=
  {| role := lit "user"; content := lit text |}.

(** ** Token budget, history and model choice

    [get_optimal_max_tokens] and [truncate_history] of [main.py] (lines
    86-119 and 160-187), and the model choice of [performance_config.py]
    (lines 147-172). *)

(** [str.lower] on the code points below 256: the letters [A]-[Z], and
    the capital letters of Latin-1 (192 to 222, the multiplication sign
    215 apart), move up by 32.  Beyond this range [str.lower] can change
    the length of a text (the capital I with a dot, code point 304,
    becomes two code points), so the properties below that speak of a
    length speak of the length of the lower-cased text, as the code
    does. *)
Definition lower_char (c : ascii) : ascii :=
  let n := nat_of_ascii c in
  if ((65 <=? n) && (n <=? 90))
     || ((192 <=? n) && (n <=? 222) && negb (n =? 215))
  then ascii_of_nat (n + 32)
  else c.

Definition lower (s : str) : str := map lower_char s.

(** [any(kw in text for kw in keywords)] *)
Definition any_in (keywords : list str) (text : str) : bool :=
  existsb (fun kw => contains kw text) keywords.

Definition code_keywords : list str :=
  map lit ["code"; "implement"; "create"; "build"; "write"; "function";
           "class"; "script"; "program"; "develop"; "generate"]%string.

Definition explain_keywords : list str :=
  map lit ["explain"; "describe"; "what is"; "how does"; "why";
           "documentation"]%string.

(** [get_optimal_max_tokens]; [rev messages] gives [messages[-1]]. *)
Definition get_optimal_max_tokens (messages : list ChatMessage)
  (default_max : Z) : Z :=
  match rev messages with
  | [] => default_max
  | last :: _ =>
      let last_msg := lower (content last) in
      let msg_length := length last_msg in
      if msg_length <? 50 then 256%Z
      else if any_in code_keywords last_msg then 1024%Z
      else if any_in explain_keywords last_msg then 768%Z
      else default_max
  end.

(** Python's [l[start:]] for an integer [start]: a negative start counts
    from the end, and the result is clipped to the list. *)
Definition slice_from {A : Type} (start : Z) (l : list A) : list A :=
  let n := Z.of_nat (length l) in
  let first := if (start <? 0)%Z then Z.max 0 (start + n) else Z.min start n in
  skipn (Z.to_nat first) l.

Definition is_system (m : ChatMessage) : bool := str_eqb (role m) (lit "system").

(** [truncate_history]; its third parameter is not used by the code. *)
Definition truncate_history (messages : list ChatMessage)
  (max_messages max_context_tokens : Z) : list ChatMessage :=
  if (Z.of_nat (length messages) <=? max_messages)%Z then messages
  else
    let system_msgs := filter is_system messages in
    let recent_msgs := slice_from (- max_messages) messages in
    match recent_msgs with
    | first :: _ =>
        if is_system first then recent_msgs else system_msgs ++ recent_msgs
    | [] => system_msgs ++ recent_msgs
    end.

Definition DEFAULT_MODEL : str := lit "qwen2.5-coder:7b".
Definition FAST_MODEL : str := lit "qwen2.5:1.5b".

Definition SIMPLE_QUERY_KEYWORDS : list str :=
  map lit ["hi"; "hello"; "hey"; "thanks"; "thank you"; "ok"; "okay";
           "yes"; "no"; "help"; "bye"; "goodbye"; "what"; "who"; "when";
           "where"]%string.

(** [should_use_fast_model] *)
Definition should_use_fast_model (query : str) : bool :=
  let query_lower := lower query in
  any_in SIMPLE_QUERY_KEYWORDS query_lower.

(** [get_model_for_query] *)
Definition get_model_for_query (query : str) : str :=
  if should_use_fast_model query then FAST_MODEL else DEFAULT_MODEL.

(** ** The prompt and the reply of the TinyLlama endpoint

    [chat_with_tinyllama] (lines 318-343) builds a prompt from the
    messages and keeps of the decoded output what follows the last
    [assistant:]. *)

Definition ROLE_MARK : str := lit "assistant:".

(** The loop [prompt += f'{msg.role}: {msg.content}' + newline], then
    [prompt += 'assistant:']. *)
Definition build_prompt (messages : list ChatMessage) : str :=
  fold_left
    (fun prompt msg => prompt ++ role msg ++ lit ": " ++ content msg ++ [newline])
    messages []
  ++ ROLE_MARK.

(** [s.split(sep)[-1]] for a non-empty [sep]: [split] cuts after the
    first occurrence of [sep] and goes on with the rest; the last piece
    is what is left when [sep] occurs no more.  Each cut shortens the
    text, so fuel above its length is never used up. *)
Fixpoint last_piece (fuel : nat) (sep s : str) : str :=
  match fuel with
  | O => s
  | S fuel' =>
      match find sep s with
      | Some i => last_piece fuel' sep (skipn (i + length sep) s)
      | None => s
      end
  end.

Definition split_last (sep s : str) : str := last_piece (S (length s)) sep s.

(** Lines 341-343: the reply kept from the decoded output. *)
Definition trim_reply (reply : str) : str :=
  if contains ROLE_MARK reply
  then strip (split_last ROLE_MARK reply)
  else reply.

(** ** Lookups and stores in any order *)

Module CacheOps.
Import ResponseCache.

(** One use of the cache: [get] or [set], at a clock reading. *)
Inductive op :=
| Lookup (now : Z) (messages : list ChatMessage)
| Store (now : Z) (messages : list ChatMessage) (response : str).

(** The cache after one use; a [set] that raises leaves it as it was. *)
Definition step (md5 : str -> str) (c : t) (o : op) : t :=
  match o with
  | Lookup now messages => snd (get md5 now messages c)
  | Store now messages response => do_store md5 c (now, messages, response)
  end.

Definition run (md5 : str -> str) (c : t) (ops : list op) : t :=
  fold_left (step md5) ops c.

End CacheOps.

(** ** Draining the event stream

    The non-streaming branch of [chat] (lines 1053-1074) adds up the
    contents of the events of [stream_ollama_response]; every chunk it
    gets starts with [data: ] and decodes. *)



(** * Properties *)

(** ** Strings *)

Lemma str_eqb_refl (a : str) : str_eqb a a = true.
Proof.
  induction a as [|x a IH]; simpl; [reflexivity|].
  now rewrite Ascii.eqb_refl, IH.
Qed.

Lemma str_eqb_eq (a b : str) : str_eqb a b = true <-> a = b.
Proof.
  split; [|intros ->; apply str_eqb_refl].
  revert b; induction a as [|x a IH]; intros [|y b]; simpl; try discriminate; auto.
  rewrite andb_true_iff, Ascii.eqb_eq. intros [-> Hab]. f_equal. auto.
Qed.

Lemma str_eqb_neq (a b : str) : a <> b -> str_eqb a b = false.
Proof.
  intros Hne. destruct (str_eqb a b) eqn:E; [|reflexivity].
  apply str_eqb_eq in E. contradiction.
Qed.

(** ** The response cache *)

Module ResponseCacheFacts.
Import ResponseCache.

Lemma dict_get_set_same k v d : dict_get k (dict_set k v d) = Some v.
Proof.
  induction d as [|[k' v'] d IH]; simpl.
  - now rewrite str_eqb_refl.
  - destruct (str_eqb k k') eqn:E; simpl; rewrite ?str_eqb_refl, ?E; auto.
Qed.

Lemma dict_get_absent k d : ~ In k (keys d) -> dict_get k d = None.
Proof.
  induction d as [|[k' v'] d IH]; simpl; [reflexivity|].
  intros Hn. rewrite str_eqb_neq by (intros ->; apply Hn; now left).
  apply IH. intros Hin. apply Hn. now right.
Qed.

Lemma dict_set_fresh k v d : ~ In k (keys d) -> dict_set k v d = d ++ [(k, v)].
Proof.
  induction d as [|[k' v'] d IH]; simpl; [reflexivity|].
  intros Hn. rewrite str_eqb_neq by (intros ->; apply Hn; now left).
  f_equal. apply IH. intros Hin. apply Hn. now right.
Qed.

Lemma keys_dict_set k v d :
  keys (dict_set k v d)
  = match dict_get k d with Some _ => keys d | None => keys d ++ [k] end.
Proof.
  induction d as [|[k' v'] d IH]; simpl; [reflexivity|].
  destruct (str_eqb k k') eqn:E; simpl.
  - apply str_eqb_eq in E. now subst.
  - rewrite IH. now destruct (dict_get k d).
Qed.

Lemma dict_get_some_in k v d : dict_get k d = Some v -> In k (keys d).
Proof.
  induction d as [|[k' v'] d IH]; simpl; [discriminate|].
  destruct (str_eqb k k') eqn:E.
  - apply str_eqb_eq in E. now left.
  - intros Hg. right. auto.
Qed.

Lemma length_dict_set k v d : length (dict_set k v d) <= S (length d).
Proof.
  induction d as [|[k' v'] d IH]; simpl; [lia|].
  destruct (str_eqb k k'); simpl; lia.
Qed.

Lemma dict_get_none_absent k d : dict_get k d = None -> ~ In k (keys d).
Proof.
  induction d as [|[k' v'] d IH]; simpl; [auto|].
  destruct (str_eqb k k') eqn:E; [discriminate|].
  intros Hg [->|Hin]; [now rewrite str_eqb_refl in E|now apply IH].
Qed.

Lemma NoDup_dict_set k v d : NoDup (keys d) -> NoDup (keys (dict_set k v d)).
Proof.
  intros Hd. rewrite keys_dict_set.
  destruct (dict_get k d) eqn:E; [assumption|].
  apply NoDup_app; [assumption|repeat constructor; intros []|].
  intros x Hx [<-|[]]. revert Hx. now apply dict_get_none_absent.
Qed.

Lemma length_dict_del k d : In k (keys d) -> S (length (dict_del k d)) = length d.
Proof.
  induction d as [|[k' v'] d IH]; simpl; [contradiction|].
  destruct (str_eqb k k') eqn:E; [reflexivity|].
  intros [->|Hin]; [now rewrite str_eqb_refl in E|].
  simpl. now rewrite IH.
Qed.

Lemma keys_dict_del_incl k d x : In x (keys (dict_del k d)) -> In x (keys d).
Proof.
  induction d as [|[k' v'] d IH]; simpl; [auto|].
  destruct (str_eqb k k'); simpl; intuition.
Qed.

Lemma NoDup_dict_del k d : NoDup (keys d) -> NoDup (keys (dict_del k d)).
Proof.
  induction d as [|[k' v'] d IH]; simpl; [auto|].
  intros Hd. inversion Hd as [|? ? Hn Hd']; subst.
  destruct (str_eqb k k'); [assumption|].
  simpl. constructor; [|auto].
  intros Hin. apply Hn. eapply keys_dict_del_incl; eauto.
Qed.

Lemma dict_get_del_same k d : NoDup (keys d) -> dict_get k (dict_del k d) = None.
Proof.
  induction d as [|[k' v'] d IH]; simpl; [reflexivity|].
  intros Hd. inversion Hd as [|? ? Hn Hd']; subst.
  destruct (str_eqb k k') eqn:E.
  - apply str_eqb_eq in E. subst. now apply dict_get_absent.
  - simpl. rewrite E. auto.
Qed.

Lemma dict_get_set_other k k' v d :
  k <> k' -> dict_get k (dict_set k' v d) = dict_get k d.
Proof.
  intros Hne. induction d as [|[k2 v2] d IH]; simpl.
  - now rewrite str_eqb_neq.
  - destruct (str_eqb k' k2) eqn:E; simpl.
    + apply str_eqb_eq in E. subst. now rewrite !str_eqb_neq.
    + destruct (str_eqb k k2); auto.
Qed.

(** [min_from] returns its first argument or an entry of the list, and
    nothing in sight has a smaller timestamp. *)
Lemma min_from_spec best d :
  let m := min_from best d in
  (m = best \/ exists r, In (fst m, (r, snd m)) d)
  /\ (snd m <= snd best)%Z
  /\ (forall k r t, In (k, (r, t)) d -> (snd m <= t)%Z).
Proof.
  revert best. induction d as [|[k [r t]] d IH]; intros best; simpl.
  - repeat split; [now left|lia|contradiction].
  - specialize (IH (if (t <? snd best)%Z then (k, t) else best)).
    simpl in IH. destruct IH as (Hsrc & Hle & Hall).
    destruct (Z.ltb_spec t (snd best)); simpl in *.
    + repeat split.
      * right. destruct Hsrc as [->|[r' Hin]]; simpl; eauto.
      * lia.
      * intros k' r' t' [Heq|Hin]; [inversion Heq; subst; lia|eauto].
    + repeat split.
      * destruct Hsrc as [->|[r' Hin]]; eauto.
      * lia.
      * intros k' r' t' [Heq|Hin]; [inversion Heq; subst; lia|eauto].
Qed.

(** When nothing is strictly older than the running best, it stays. *)
Lemma min_from_keeps best d :
  (forall k r t, In (k, (r, t)) d -> (snd best <= t)%Z) ->
  min_from best d = best.
Proof.
  revert best. induction d as [|[k [r t]] d IH]; intros best Hall; simpl.
  - reflexivity.
  - assert (snd best <= t)%Z by (eapply Hall; now left).
    destruct (Z.ltb_spec t (snd best)); [lia|].
    apply IH. intros; eapply Hall; right; eauto.
Qed.

Lemma oldest_key_spec d oldest :
  oldest_key d = Some oldest ->
  exists r t, In (oldest, (r, t)) d
              /\ forall k r' t', In (k, (r', t')) d -> (t <= t')%Z.
Proof.
  destruct d as [|[k [r t]] d]; simpl; [discriminate|].
  intros [= <-].
  destruct (min_from_spec (k, t) d) as (Hsrc & Hle & Hall); simpl in *.
  destruct Hsrc as [Heq|[r' Hin]].
  - rewrite Heq in *; simpl in *. exists r, t. split; [now left|].
    intros k' r2 t' [Hhd|Hin]; [inversion Hhd; lia|eauto].
  - exists r', (snd (min_from (k, t) d)). split; [now right|].
    intros k' r2 t' [Hhd|Hin']; [inversion Hhd; subst; lia|eauto].
Qed.

Lemma sorted_prefix (l1 l2 : list Z) :
  StronglySorted Z.le (l1 ++ l2) -> StronglySorted Z.le l1.
Proof.
  induction l1 as [|x l1 IH]; simpl; intros Hs; [constructor|].
  apply StronglySorted_inv in Hs as [Hs Hall].
  constructor; [auto|].
  rewrite Forall_app in Hall. tauto.
Qed.

Section WithHash.

Variable md5 : str -> str.

Lemma entry_key_in k v (d : dict) : In (k, v) d -> In k (keys d).
Proof. intros Hin. apply (in_map fst) in Hin. exact Hin. Qed.

Lemma set_fits now messages response c c' :
  fits c -> set md5 now messages response c = Some c' ->
  fits c' /\ max_size c' = max_size c.
Proof.
  intros [Hnd Hlen]. unfold set.
  destruct (Z.leb_spec (max_size c) (Z.of_nat (length (cache c)))) as [Hfull|Hroom].
  - destruct (oldest_key (cache c)) as [oldest|] eqn:Eo; [|discriminate].
    intros [= <-]. unfold fits, with_cache. simpl. split; [split|reflexivity].
    + apply NoDup_dict_set, NoDup_dict_del, Hnd.
    + destruct (oldest_key_spec _ _ Eo) as (r & ts & Hin & _).
      apply entry_key_in in Hin. apply length_dict_del in Hin.
      eapply Z.le_trans; [|exact Hlen]. apply Nat2Z.inj_le.
      etransitivity; [apply length_dict_set|lia].
  - intros [= <-]. unfold fits, with_cache. simpl. split; [split|reflexivity].
    + apply NoDup_dict_set, Hnd.
    + eapply Z.le_trans; [apply Nat2Z.inj_le, length_dict_set|lia].
Qed.

Lemma do_store_fits c s :
  fits c -> fits (do_store md5 c s) /\ max_size (do_store md5 c s) = max_size c.
Proof.
  intros Hc. unfold do_store.
  destruct (set md5 (store_time s) (snd (fst s)) (snd s) c) as [c'|] eqn:E.
  - eapply set_fits; eauto.
  - auto.
Qed.

Lemma run_stores_fits ops c :
  fits c ->
  fits (run_stores md5 c ops) /\ max_size (run_stores md5 c ops) = max_size c.
Proof.
  revert c. induction ops as [|s ops IH]; intros c Hc; simpl; [auto|].
  destruct (do_store_fits c s Hc) as [Hc' Hm].
  destruct (IH _ Hc') as [Hf Hm']. split; [assumption|congruence].
Qed.

(** While there is room, each new key is appended. *)
Lemma run_stores_fill ops d ms ttl :
  NoDup (keys d ++ map (store_key md5) ops) ->
  (Z.of_nat (length d + length ops) <= ms)%Z ->
  run_stores md5 {| cache := d; max_size := ms; ttl_seconds := ttl |} ops
  = {| cache := d ++ map (store_entry md5) ops;
       max_size := ms; ttl_seconds := ttl |}.
Proof.
  revert d. induction ops as [|s ops IH]; intros d Hnd Hlen; simpl.
  - now rewrite app_nil_r.
  - unfold do_store, set. simpl.
    destruct (Z.leb_spec ms (Z.of_nat (length d))) as [Hfull|_];
      [simpl in Hlen; lia|].
    unfold with_cache. simpl.
    assert (Hfresh : ~ In (store_key md5 s) (keys d)).
    { intros Hin. simpl in Hnd. apply NoDup_remove_2 in Hnd.
      apply Hnd, in_or_app. now left. }
    fold (store_key md5 s). rewrite dict_set_fresh by assumption.
    rewrite IH.
    + rewrite <- app_assoc. reflexivity.
    + unfold keys in *. rewrite map_app, <- app_assoc. exact Hnd.
    + rewrite length_app. simpl in *. lia.
Qed.

(** A store into a full cache whose first entry is the oldest. *)
Lemma set_full_oldest_first now messages response k0 r0 t0 (d : dict) ms ttl :
  (ms <= Z.of_nat (S (length d)))%Z ->
  (forall k r ts, In (k, (r, ts)) d -> (t0 <= ts)%Z) ->
  set md5 now messages response
    {| cache := (k0, (r0, t0)) :: d; max_size := ms; ttl_seconds := ttl |}
  = Some {| cache := dict_set (_get_cache_key md5 messages) (response, now) d;
            max_size := ms; ttl_seconds := ttl |}.
Proof.
  intros Hfull Hmin. unfold set, oldest_key. simpl cache. simpl max_size.
  match goal with
  | |- context [(?a <=? ?b)%Z] => destruct (Z.leb_spec a b) as [_|Hlt]
  end; [|simpl length in Hlt; lia].
  cbv iota beta. rewrite min_from_keeps by (simpl; assumption).
  unfold with_cache. simpl. now rewrite str_eqb_refl.
Qed.

Lemma sorted_head_least (s : store) (ops : list store) k r ts :
  StronglySorted Z.le (map (store_time) (s :: ops)) ->
  In (k, (r, ts)) (map (store_entry md5) ops) ->
  (store_time s <= ts)%Z.
Proof.
  intros Hs Hin. simpl in Hs. apply StronglySorted_inv in Hs as [_ Hall].
  rewrite Forall_forall in Hall.
  apply in_map_iff in Hin as (s' & Heq & Hin'). inversion Heq; subst.
  apply Hall. now apply in_map.
Qed.

(** C7: a cache within its capacity stays within it under any sequence
    of stores (and keeps its keys distinct); a store into a full cache
    removes an entry whose creation timestamp is the smallest, which is
    then absent unless it is the key being stored; and [max_size + 1]
    stores of distinct keys at non-decreasing clock readings into a new
    cache leave exactly [max_size] entries, without the first key. *)
Theorem cache_capacity_and_eviction :
  (forall (c : t) (ops : list store),
      fits c ->
      (Z.of_nat (length (cache (run_stores md5 c ops))) <= max_size c)%Z)
  /\
  (forall now messages response (c c' : t),
      (max_size c <= Z.of_nat (length (cache c)))%Z ->
      set md5 now messages response c = Some c' ->
      exists oldest r ts,
        In (oldest, (r, ts)) (cache c)
        /\ (forall k r' ts', In (k, (r', ts')) (cache c) -> (ts <= ts')%Z)
        /\ cache c' = dict_set (_get_cache_key md5 messages) (response, now)
                        (dict_del oldest (cache c))
        /\ (NoDup (keys (cache c)) -> oldest <> _get_cache_key md5 messages ->
            dict_get oldest (cache c') = None))
  /\
  (forall (n : nat) (ttl : Z) (first : store) (rest : list store),
      0 < n -> length (first :: rest) = S n ->
      NoDup (map (store_key md5) (first :: rest)) ->
      StronglySorted Z.le (map (store_time) (first :: rest)) ->
      let c := run_stores md5 (init (Z.of_nat n) ttl) (first :: rest) in
      length (cache c) = n /\ dict_get (store_key md5 first) (cache c) = None).
Proof.
  split; [|split].
  - intros c ops Hc. destruct (run_stores_fits ops c Hc) as [[_ Hlen] Hm].
    now rewrite <- Hm.
  - intros now messages response c c' Hfull. unfold set.
    destruct (Z.leb_spec (max_size c) (Z.of_nat (length (cache c)))); [|lia].
    destruct (oldest_key (cache c)) as [oldest|] eqn:Eo; [|discriminate].
    intros [= <-]. unfold with_cache. simpl.
    destruct (oldest_key_spec _ _ Eo) as (r & ts & Hin & Hmin).
    exists oldest, r, ts. repeat split; auto.
    intros Hnd Hne. rewrite dict_get_set_other by assumption.
    now apply dict_get_del_same.
  - intros n ttl first rest Hn Hlen Hnd Hsorted c.
    assert (Hrest : rest <> []) by (destruct rest; simpl in *; [lia|discriminate]).
    destruct (exists_last Hrest) as (mid & last & ->).
    assert (Hmid : S (length mid) = n)
      by (simpl in Hlen; rewrite length_app in Hlen; simpl in Hlen; lia).
    change (first :: mid ++ [last]) with ((first :: mid) ++ [last]) in *.
    rewrite map_app in Hnd, Hsorted.
    assert (Hnd1 : NoDup (map (store_key md5) (first :: mid)))
      by (eapply NoDup_app_remove_r; eauto).
    assert (Hlast : ~ In (store_key md5 last) (map (store_key md5) (first :: mid))).
    { simpl map at 2 in Hnd. apply NoDup_remove_2 in Hnd.
      now rewrite app_nil_r in Hnd. }
    subst c. unfold run_stores. rewrite fold_left_app.
    fold (run_stores md5 (init (Z.of_nat n) ttl) (first :: mid)).
    unfold init. rewrite run_stores_fill by (simpl; assumption || lia).
    simpl app. simpl map. simpl fold_left.
    assert (Hfresh : ~ In (store_key md5 last) (keys (map (store_entry md5) mid))).
    { intros Hin. apply Hlast. right. unfold keys in Hin.
      rewrite map_map in Hin. exact Hin. }
    assert (Hfinal :
      do_store md5
        {| cache := store_entry md5 first :: map (store_entry md5) mid;
           max_size := Z.of_nat n; ttl_seconds := ttl |} last
      = {| cache := map (store_entry md5) mid ++ [store_entry md5 last];
           max_size := Z.of_nat n; ttl_seconds := ttl |}).
    { unfold do_store. unfold store_entry at 1.
      rewrite set_full_oldest_first.
      - fold (store_key md5 last). rewrite dict_set_fresh by assumption.
        reflexivity.
      - rewrite length_map. lia.
      - intros k r ts Hin. eapply sorted_head_least; [|exact Hin].
        eapply sorted_prefix. exact Hsorted. }
    rewrite Hfinal. simpl cache. split.
    + rewrite length_app, length_map. simpl. lia.
    + apply dict_get_absent. unfold keys. rewrite map_app, map_map. simpl.
      inversion Hnd1 as [|? ? Hn1 _]; subst.
      intros Hin. apply in_app_or in Hin as [Hin|[Heq|[]]].
      * apply Hn1. exact Hin.
      * apply Hlast. left. symmetry. exact Heq.
Qed.

(** C10: the cache key is not injective on message windows.  The two
    messages [user:a], [user:b] and the single message [user:auser:b]
    are different windows with the same key, whatever the hash; so a
    response stored for the first is what a lookup of the second
    returns, as long as the entry has not expired. *)
Theorem cache_key_not_injective :
  let two := [user_says "a"; user_says "b"] in
  let one := [user_says "auser:b"] in
  two <> one
  /\ _get_cache_key md5 two = _get_cache_key md5 one
  /\ (forall now now' response (c c' : t),
        set md5 now two response c = Some c' ->
        (now' - now < ttl_seconds c)%Z ->
        fst (get md5 now' one c') = Some response).
Proof.
  intros two one.
  assert (Hkey : _get_cache_key md5 two = _get_cache_key md5 one) by reflexivity.
  split; [discriminate|]. split; [exact Hkey|].
  intros now now' response c c' Hset Hfresh.
  assert (Hc' : dict_get (_get_cache_key md5 two) (cache c') = Some (response, now)
                /\ ttl_seconds c' = ttl_seconds c).
  { unfold set in Hset.
    destruct (max_size c <=? Z.of_nat (length (cache c)))%Z.
    - destruct (oldest_key (cache c)); [|discriminate].
      injection Hset as <-. split; [apply dict_get_set_same|reflexivity].
    - injection Hset as <-. split; [apply dict_get_set_same|reflexivity]. }
  destruct Hc' as [Hget Httl].
  unfold get. rewrite <- Hkey, Hget, Httl.
  apply Z.ltb_lt in Hfresh. now rewrite Hfresh.
Qed.

End WithHash.

(** Three stores into a cache of capacity 2, at clock readings 1, 2, 3. *)
Lemma cache_capacity_and_eviction_witness :
  let ops : list store :=
    [(1%Z, [user_says "a"], lit "A"); (2%Z, [user_says "b"], lit "B");
     (3%Z, [user_says "c"], lit "C")] in
  let full := run_stores plain_key (init 2 3600) (firstn 2 ops) in
  let c := run_stores plain_key (init 2 3600) ops in
  (Z.of_nat (length (cache c)) <= 2)%Z
  /\ (exists oldest r ts,
        In (oldest, (r, ts)) (cache full)
        /\ (forall k r' ts', In (k, (r', ts')) (cache full) -> (ts <= ts')%Z)
        /\ cache c = dict_set (_get_cache_key plain_key [user_says "c"])
                       (lit "C", 3%Z) (dict_del oldest (cache full))
        /\ (NoDup (keys (cache full)) ->
            oldest <> _get_cache_key plain_key [user_says "c"] ->
            dict_get oldest (cache c) = None))
  /\ length (cache c) = 2
  /\ dict_get (lit "user:a") (cache c) = None.
Proof.
  intros ops full c.
  destruct (cache_capacity_and_eviction plain_key) as (Hbound & Hevict & Hfirst).
  split; [|split].
  - apply (Hbound (init 2 3600) ops).
    split; simpl; [constructor|lia].
  - apply (Hevict 3%Z [user_says "c"] (lit "C") full c).
    + vm_compute. discriminate.
    + reflexivity.
  - apply (Hfirst 2 3600%Z (1%Z, [user_says "a"], lit "A")
             [(2%Z, [user_says "b"], lit "B"); (3%Z, [user_says "c"], lit "C")]).
    + lia.
    + reflexivity.
    + simpl.
      repeat first [apply NoDup_nil
                   |apply NoDup_cons; [simpl; intuition discriminate|]].
    + unfold store_time. simpl.
      repeat first [apply SSorted_nil | apply SSorted_cons
                   |apply Forall_nil | apply Forall_cons; [lia|]].
Defined.

(** The default cache of the program, a store at time 0 and a lookup of
    the colliding window ten seconds later. *)
Lemma cache_key_not_injective_witness :
  exists c' : t,
    set plain_key 0 [user_says "a"; user_says "b"] (lit "hello") (init 100 3600)
    = Some c'
    /\ fst (get plain_key 10 [user_says "auser:b"] c') = Some (lit "hello").
Proof.
  eexists. split; [reflexivity|].
  apply (proj2 (proj2 (cache_key_not_injective plain_key))
           0%Z 10%Z (lit "hello") (init 100 3600)).
  - reflexivity.
  - simpl. lia.
Defined.

End ResponseCacheFacts.

(** ** Substrings *)

Lemma starts_with_app (p s : str) : starts_with p (p ++ s) = true.
Proof.
  induction p as [|x p IH]; simpl; [reflexivity|].
  now rewrite Ascii.eqb_refl.
Qed.

Lemma starts_with_app_l (p a b : str) :
  starts_with p a = true -> starts_with p (a ++ b) = true.
Proof.
  revert a. induction p as [|x p IH]; intros [|y a]; simpl; try discriminate; auto.
  rewrite !andb_true_iff. intros [Hxy Hp]. auto.
Qed.

Lemma starts_with_prefix (p q s : str) :
  starts_with (p ++ q) s = true -> starts_with p s = true.
Proof.
  revert s. induction p as [|x p IH]; intros s; simpl; [reflexivity|].
  destruct s as [|y s]; [discriminate|].
  rewrite !andb_true_iff. intros [Hxy Hp]. eauto.
Qed.

Lemma starts_with_skipn (p s : str) :
  starts_with p s = true -> s = p ++ skipn (length p) s.
Proof.
  revert s. induction p as [|x p IH]; intros s; simpl; [reflexivity|].
  destruct s as [|y s]; [discriminate|].
  rewrite andb_true_iff, Ascii.eqb_eq. intros [-> Hp]. f_equal. auto.
Qed.

Lemma contains_here (p s : str) :
  starts_with p s = true -> contains p s = true.
Proof. intros H. destruct s; simpl in *; now rewrite H. Qed.

Lemma contains_app_l (p a b : str) :
  contains p a = true -> contains p (a ++ b) = true.
Proof.
  induction a as [|x a IH]; simpl.
  - rewrite orb_false_r. intros Hp. destruct p; [|discriminate].
    destruct b; reflexivity.
  - rewrite !orb_true_iff. intros [Hp|Hc].
    + left. now apply (starts_with_app_l p (x :: a) b).
    + right. auto.
Qed.

Lemma contains_app_r (p a b : str) :
  contains p b = true -> contains p (a ++ b) = true.
Proof.
  intros Hb. induction a as [|x a IH]; simpl; [assumption|].
  rewrite IH. apply orb_true_r.
Qed.

Lemma contains_app_false (p a b : str) :
  contains p (a ++ b) = false ->
  contains p a = false /\ contains p b = false.
Proof.
  intros Hab. split.
  - destruct (contains p a) eqn:E; [|reflexivity].
    now rewrite (contains_app_l p a b E) in Hab.
  - destruct (contains p b) eqn:E; [|reflexivity].
    now rewrite (contains_app_r p a b E) in Hab.
Qed.

Lemma contains_prefix (p q s : str) :
  contains (p ++ q) s = true -> contains p s = true.
Proof.
  induction s as [|x s IH]; simpl; rewrite !orb_true_iff.
  - intros [H|H]; [|discriminate]. left. eapply starts_with_prefix; eauto.
  - intros [H|H]; [left; eapply starts_with_prefix; eauto|right; auto].
Qed.

(** A prefix test that succeeds on [a ++ c :: t] with a pattern free of
    [c] succeeds within [a]. *)
Lemma starts_with_before (c : ascii) (q a t : str) :
  ~ In c q -> starts_with q (a ++ c :: t) = true -> starts_with q a = true.
Proof.
  revert a. induction q as [|y q IH]; intros a Hc; simpl; [reflexivity|].
  destruct a as [|x a]; simpl.
  - rewrite andb_true_iff, Ascii.eqb_eq. intros [-> _]. exfalso. apply Hc. now left.
  - rewrite !andb_true_iff. intros [Hxy Hq]. split; [assumption|].
    apply IH; [|assumption]. intros Hin. apply Hc. now right.
Qed.

(** A pattern whose first character does not occur again in it cannot
    start inside [a] and end inside a copy of itself that follows. *)
Lemma starts_with_no_straddle (c x : ascii) (p' a t : str) :
  ~ In c p' ->
  starts_with (c :: p') (x :: a ++ c :: t) = true ->
  starts_with (c :: p') (x :: a) = true.
Proof.
  intros Hc. simpl. rewrite !andb_true_iff. intros [Hcx Hp]. split; [assumption|].
  eapply starts_with_before; eauto.
Qed.

Lemma find_after_clean (c : ascii) (p' a t : str) :
  ~ In c p' ->
  contains (c :: p') a = false ->
  find (c :: p') (a ++ (c :: p') ++ t) = Some (length a).
Proof.
  intros Hc. induction a as [|x a IH]; intros Hclean.
  - pose proof (starts_with_app (c :: p') t) as Hp. simpl in *. now rewrite Hp.
  - change (contains (c :: p') (x :: a))
      with (starts_with (c :: p') (x :: a) || contains (c :: p') a) in Hclean.
    apply orb_false_iff in Hclean as [Hhere Hrest].
    change ((x :: a) ++ (c :: p') ++ t) with (x :: a ++ c :: p' ++ t).
    cbn [find].
    destruct (starts_with (c :: p') (x :: a ++ c :: p' ++ t)) eqn:E.
    + apply starts_with_no_straddle in E; [congruence|assumption].
    + change (a ++ c :: p' ++ t) with (a ++ (c :: p') ++ t).
      rewrite (IH Hrest). reflexivity.
Qed.

Lemma contains_no_straddle (c : ascii) (p' a t : str) :
  ~ In c p' ->
  contains (c :: p') a = false ->
  forall i, i < length a ->
    starts_with (c :: p') (skipn i (a ++ c :: t)) = false.
Proof.
  intros Hc. induction a as [|x a IH]; intros Hclean i Hi; [simpl in Hi; lia|].
  change (contains (c :: p') (x :: a))
    with (starts_with (c :: p') (x :: a) || contains (c :: p') a) in Hclean.
  apply orb_false_iff in Hclean as [Hhere Hrest].
  destruct i as [|i].
  - change (skipn 0 ((x :: a) ++ c :: t)) with (x :: a ++ c :: t).
    destruct (starts_with (c :: p') (x :: a ++ c :: t)) eqn:E; [|reflexivity].
    apply starts_with_no_straddle in E; [congruence|assumption].
  - change (skipn (S i) ((x :: a) ++ c :: t)) with (skipn i (a ++ c :: t)).
    apply IH; [assumption|simpl in Hi; lia].
Qed.

(** ** The display buffer *)

Lemma match_tag_length (s : str) (n : nat) :
  match_tag s = Some n -> 0 < n /\ s <> [].
Proof.
  unfold match_tag. destruct (starts_with TOOL_OPEN s) eqn:E; [|discriminate].
  destruct (find _ _); [|discriminate]. destruct (find _ _); [|discriminate].
  intros [= <-]. split; [simpl; lia|].
  intros ->. discriminate.
Qed.

Lemma search_tag_shorter (s before_tool after_tool : str) :
  search_tag s = Some (before_tool, after_tool) ->
  length after_tool < length s.
Proof.
  revert before_tool. induction s as [|c s IH]; intros b; simpl.
  - destruct (match_tag []) eqn:E; [|discriminate].
    apply match_tag_length in E. destruct E as [_ []]. reflexivity.
  - destruct (match_tag (c :: s)) as [n|] eqn:E.
    + intros [= <- <-]. apply match_tag_length in E as [Hn _].
      rewrite length_skipn. cbn [length]. lia.
    + destruct (search_tag s) as [[b' a']|]; [|discriminate].
      intros [= <- <-]. specialize (IH _ eq_refl). simpl. lia.
Qed.

(** The loop over the buffer ends: fuel above the length of the buffer
    is enough. *)
Lemma demux_total (fuel : nat) (buf : str) :
  length buf < fuel -> exists r, demux fuel buf = Some r.
Proof.
  revert buf. induction fuel as [|fuel IH]; intros buf Hlen; [lia|].
  simpl. destruct (contains TOOL_OPEN buf); simpl; [|eauto].
  destruct (contains TOOL_CLOSE buf); [|eauto].
  destruct (search_tag buf) as [[b a]|] eqn:E; [|eauto].
  apply search_tag_shorter in E.
  destruct (IH a ltac:(lia)) as [[evs buf'] ->]. eauto.
Qed.

Lemma demux_more_fuel (fuel fuel' : nat) (buf : str) r :
  demux fuel buf = Some r -> fuel <= fuel' -> demux fuel' buf = Some r.
Proof.
  revert fuel' buf r. induction fuel as [|fuel IH]; intros fuel' buf r; [discriminate|].
  intros Hd Hle. destruct fuel' as [|fuel']; [lia|].
  simpl in *. destruct (contains TOOL_OPEN buf); simpl in *; [|assumption].
  destruct (contains TOOL_CLOSE buf); [|assumption].
  destruct (search_tag buf) as [[b a]|]; [|assumption].
  destruct (demux fuel a) as [[evs buf']|] eqn:E; [|discriminate].
  rewrite (IH fuel' a _ E) by lia. assumption.
Qed.

(** One turn of the loop over the buffer, as the source has it. *)
Lemma process_buffer_eq (buf : str) :
  process_buffer buf =
  if negb (contains TOOL_OPEN buf) then (yield_text buf, [])
  else if contains TOOL_CLOSE buf then
    match search_tag buf with
    | Some (before_tool, after_tool) =>
        let (evs, buf') := process_buffer after_tool in
        (yield_text before_tool ++ evs, buf')
    | None => ([], buf)
    end
  else ([], buf).
Proof.
  unfold process_buffer at 1. simpl demux.
  destruct (contains TOOL_OPEN buf); simpl; [|reflexivity].
  destruct (contains TOOL_CLOSE buf); [|reflexivity].
  destruct (search_tag buf) as [[b a]|] eqn:E; [|reflexivity].
  pose proof (search_tag_shorter _ _ _ E) as Hlt.
  unfold process_buffer.
  destruct (demux_total (S (length a)) a ltac:(lia)) as [[evs buf'] Ha].
  rewrite Ha. rewrite (demux_more_fuel _ (length buf) _ _ Ha) by lia.
  reflexivity.
Qed.

Lemma process_buffer_plain (buf : str) :
  contains TOOL_OPEN buf = false -> process_buffer buf = (yield_text buf, []).
Proof. intros H. rewrite process_buffer_eq, H. reflexivity. Qed.

(** ** One streamed round *)

Section RoundFacts.

Context {J : Json}.

Lemma feed_response content (r : Round) :
  iteration_response (feed content r) = iteration_response r ++ content.
Proof. unfold feed. now destruct (process_buffer _). Qed.

Lemma feed_found content (r : Round) :
  tool_calls_found (feed content r) = tool_calls_found r.
Proof. unfold feed. now destruct (process_buffer _). Qed.

Lemma on_data_response content tool_calls (r : Round) :
  iteration_response (on_data content tool_calls r)
  = iteration_response r ++ content.
Proof.
  unfold on_data. destruct content as [|c content]; simpl nonempty; cbv iota.
  - simpl. now rewrite app_nil_r.
  - now rewrite feed_response.
Qed.

Lemma on_data_found content tool_calls (r : Round) :
  tool_calls_found (on_data content tool_calls r)
  = tool_calls_found r ++ tool_calls.
Proof.
  unfold on_data. destruct (nonempty content); [|reflexivity].
  now rewrite feed_found.
Qed.

Lemma finish_response (r : Round) :
  iteration_response (finish r) = iteration_response r.
Proof. unfold finish. now destruct (_ && _). Qed.

Lemma finish_found (r : Round) :
  tool_calls_found (finish r) = tool_calls_found r.
Proof. unfold finish. now destruct (_ && _). Qed.

(** The text of a round is the concatenation of what was fed. *)
Lemma read_lines_response lines (r : Round) :
  iteration_response (fst (read_lines lines r))
  = iteration_response r ++ concat (fed_chunks lines).
Proof.
  revert r. induction lines as [|[| |content tcs done] lines IH]; intros r; simpl.
  - now rewrite app_nil_r.
  - apply IH.
  - apply IH.
  - destruct done; simpl.
    + now rewrite finish_response, on_data_response, app_nil_r.
    + now rewrite IH, on_data_response, <- app_assoc.
Qed.

Lemma read_lines_found lines (r : Round) :
  tool_calls_found (fst (read_lines lines r))
  = tool_calls_found r ++ reported_calls lines.
Proof.
  revert r. induction lines as [|[| |content tcs done] lines IH]; intros r; simpl.
  - now rewrite app_nil_r.
  - apply IH.
  - apply IH.
  - destruct done; simpl.
    + now rewrite finish_found, on_data_found, app_nil_r.
    + now rewrite IH, on_data_found, <- app_assoc.
Qed.

Lemma concat_yield_text (chunks : list str) :
  concat (map ev_content (flat_map yield_text chunks)) = concat chunks.
Proof.
  induction chunks as [|[|c chunk] chunks IH]; simpl; [reflexivity|assumption|].
  now rewrite IH.
Qed.

Lemma yield_text_not_done (chunks : list str) :
  Forall (fun e => ev_done e = false) (flat_map yield_text chunks).
Proof.
  induction chunks as [|[|c chunk] chunks IH]; simpl; auto.
Qed.

(** Text without the opening marker goes out chunk by chunk, and the
    buffer is empty after each chunk. *)
Lemma read_lines_plain lines (r : Round) :
  display_buffer r = [] ->
  contains TOOL_OPEN (concat (fed_chunks lines)) = false ->
  yielded (fst (read_lines lines r))
  = yielded r ++ flat_map yield_text (fed_chunks lines)
  /\ display_buffer (fst (read_lines lines r)) = [].
Proof.
  revert r. induction lines as [|[| |content tcs done] lines IH]; intros r Hbuf Hplain.
  - simpl. now rewrite app_nil_r.
  - apply IH; assumption.
  - apply IH; assumption.
  - cbn [read_lines fed_chunks] in *. cbn [concat] in Hplain.
    apply contains_app_false in Hplain as [Hhere Hrest].
    assert (Hdata : yielded (on_data content tcs r) = yielded r ++ yield_text content
                    /\ display_buffer (on_data content tcs r) = []).
    { unfold on_data. destruct content as [|c content]; simpl nonempty; cbv iota.
      - simpl. now rewrite app_nil_r.
      - unfold feed. cbn [display_buffer]. rewrite Hbuf.
        change ([] ++ c :: content) with (c :: content).
        rewrite (process_buffer_plain _ Hhere). simpl. auto. }
    destruct Hdata as [Hy Hb].
    destruct done; cbn [fst flat_map].
    + unfold finish. rewrite Hb. simpl. now rewrite Hy, app_nil_r.
    + destruct (IH _ Hb Hrest) as [Hy' Hb']. split; [|assumption].
      now rewrite Hy', Hy, <- app_assoc.
Qed.

(** C5: when the text fed during a round has no [<tool_call] in it, the
    passthrough events carry, in order, exactly the chunks fed (the empty
    ones apart), so that their contents concatenate to the input; none is
    a completion event and nothing stays in the buffer. *)
Theorem plain_text_passes_through (lines : list Line) :
  contains TOOL_OPEN (concat (fed_chunks lines)) = false ->
  let r := fst (read_lines lines new_round) in
  yielded r = flat_map yield_text (fed_chunks lines)
  /\ concat (map ev_content (yielded r)) = concat (fed_chunks lines)
  /\ Forall (fun e => ev_done e = false) (yielded r)
  /\ display_buffer r = [].
Proof.
  intros Hplain r.
  destruct (read_lines_plain lines new_round eq_refl Hplain) as [Hy Hb].
  simpl in Hy. subst r. rewrite Hy. repeat split.
  - apply concat_yield_text.
  - apply yield_text_not_done.
  - assumption.
Qed.

(** C6: as soon as the lines of a round carry one structured call, the
    calls extracted at the end of the round are those structured calls,
    one for one and in order of arrival, each with the name and the
    arguments the server reported, whatever the text of the round
    contains: no extracted call stems from an inline tag (a call parsed
    from the text carries the text of its tag as [raw_match]). *)
Theorem structured_calls_take_precedence (lines : list Line) :
  reported_calls lines <> [] ->
  let calls := extract_tool_calls (fst (read_lines lines new_round)) in
  map name calls = map fn_name (reported_calls lines)
  /\ map arguments calls = map fn_arguments (reported_calls lines)
  /\ Forall (fun call => raw_match call = None) calls.
Proof.
  intros Hsome calls. subst calls. unfold extract_tool_calls.
  rewrite read_lines_found. simpl app.
  destruct (reported_calls lines) as [|tc rest] eqn:E; [contradiction|].
  rewrite <- E. clear. rewrite !map_map. cbn [native_call name arguments].
  split; [apply map_ext; reflexivity|]. split; [apply map_ext; reflexivity|].
  apply Forall_forall. intros call Hin.
  apply in_map_iff in Hin as (tc & <- & _). reflexivity.
Qed.

End RoundFacts.

(** ** A tag in the documented format *)

Lemma skipn_app_exact {A} (a b : list A) : skipn (length a) (a ++ b) = b.
Proof. induction a; simpl; auto. Qed.

Lemma firstn_app_exact {A} (a b : list A) : firstn (length a) (a ++ b) = a.
Proof. induction a; simpl; [reflexivity|now f_equal]. Qed.

Lemma run_without_stops (c : ascii) (a t : str) :
  ~ In c a -> run_without c (a ++ c :: t) = a.
Proof.
  induction a as [|x a IH]; simpl; intros Hc.
  - now rewrite Ascii.eqb_refl.
  - destruct (Ascii.eqb_spec x c) as [->|_]; [exfalso; apply Hc; now left|].
    f_equal. apply IH. intros Hin. apply Hc. now right.
Qed.


Lemma nonempty_true (s : str) : s <> [] -> nonempty s = true.
Proof. destruct s; [contradiction|reflexivity]. Qed.

Lemma find_close (body post : str) :
  body_ok body -> find TOOL_CLOSE (body ++ TOOL_CLOSE ++ post) = Some (length body).
Proof.
  intros Hb.
  change TOOL_CLOSE with ("<"%char :: lit "/tool_call>") in *.
  apply find_after_clean; [|exact Hb].
  simpl. intuition discriminate.
Qed.

Lemma match_tool_call_tag (tool_name body post : str) :
  tool_name_ok tool_name -> body_ok body ->
  match_tool_call (tool_call_tag tool_name body ++ post)
  = Some (tool_name, body, length (tool_call_tag tool_name body)).
Proof.
  intros [Hne Hq] Hb. unfold match_tool_call, tool_call_tag.
  rewrite <- !app_assoc.
  rewrite starts_with_app, skipn_app_exact.
  change (NAME_CLOSE ++ body ++ TOOL_CLOSE ++ post)
    with (dquote :: (">"%char :: body ++ TOOL_CLOSE ++ post)).
  rewrite (run_without_stops dquote tool_name _ Hq).
  rewrite skipn_app_exact, (nonempty_true _ Hne).
  change (dquote :: (">"%char :: body ++ TOOL_CLOSE ++ post))
    with (NAME_CLOSE ++ body ++ TOOL_CLOSE ++ post).
  rewrite starts_with_app, skipn_app_exact. cbv iota beta. simpl andb. cbv iota.
  rewrite (find_close body post Hb), firstn_app_exact.
  rewrite !length_app. do 2 f_equal. lia.
Qed.

Lemma finditer_skip (a b : str) (n : nat) :
  finditer (length a + n) (a ++ b) = finditer n b.
Proof.
  induction a as [|x a IH]; [reflexivity|].
  simpl. exact IH.
Qed.

Lemma match_tool_call_needs_open (s : str) :
  starts_with NAME_OPEN s = false -> match_tool_call s = None.
Proof. intros H. unfold match_tool_call. now rewrite H. Qed.

(** Nothing is found in a stretch where the pattern cannot start. *)
Lemma finditer_no_start (a b : str) :
  (forall i, i < length a -> starts_with NAME_OPEN (skipn i (a ++ b)) = false) ->
  finditer 0 (a ++ b) = finditer 0 b.
Proof.
  induction a as [|x a IH]; intros Hno; [reflexivity|].
  change ((x :: a) ++ b) with (x :: a ++ b). cbn [finditer].
  rewrite match_tool_call_needs_open by (apply (Hno 0); simpl; lia).
  apply IH. intros i Hi. apply (Hno (S i)). simpl. lia.
Qed.

Lemma no_open_no_name_open (pre : str) :
  contains TOOL_OPEN pre = false -> contains NAME_OPEN pre = false.
Proof.
  intros Hpre. destruct (contains NAME_OPEN pre) eqn:E; [|reflexivity].
  change NAME_OPEN with (TOOL_OPEN ++ (lit " name=" ++ [dquote])) in E.
  apply contains_prefix in E. congruence.
Qed.

(** The matches in [pre ++ tag ++ post], when [pre] has no opening
    marker: the tag, then the matches of [post]. *)
Lemma finditer_tag (pre tool_name body post : str) :
  contains TOOL_OPEN pre = false ->
  tool_name_ok tool_name -> body_ok body ->
  finditer 0 (pre ++ tool_call_tag tool_name body ++ post)
  = (tool_name, body, tool_call_tag tool_name body) :: finditer 0 post.
Proof.
  intros Hpre Hname Hbody.
  pose proof (match_tool_call_tag tool_name body post Hname Hbody) as Hm.
  rewrite finditer_no_start.
  - remember (tool_call_tag tool_name body) as tag eqn:Etag.
    assert (Hcons : exists tl, tag = "<"%char :: tl).
    { subst tag. unfold tool_call_tag.
      change NAME_OPEN with ("<"%char :: (lit "tool_call name=" ++ [dquote])).
      eexists. reflexivity. }
    destruct Hcons as [tl Htl]. rewrite Htl in *.
    change (("<"%char :: tl) ++ post) with ("<"%char :: tl ++ post) in *.
    cbn [finditer]. rewrite Hm.
    change ("<"%char :: tl ++ post) with (("<"%char :: tl) ++ post).
    rewrite firstn_app_exact. f_equal.
    cbn [length]. rewrite Nat.sub_1_r. cbn [Nat.pred].
    rewrite <- (Nat.add_0_r (length tl)). apply finditer_skip.
  - intros i Hi.
    unfold tool_call_tag.
    change NAME_OPEN with ("<"%char :: (lit "tool_call name=" ++ [dquote])).
    rewrite <- !app_assoc.
    change (("<"%char :: (lit "tool_call name=" ++ [dquote])) ++
            tool_name ++ NAME_CLOSE ++ body ++ TOOL_CLOSE ++ post)
      with ("<"%char :: ((lit "tool_call name=" ++ [dquote]) ++
            tool_name ++ NAME_CLOSE ++ body ++ TOOL_CLOSE ++ post)).
    apply contains_no_straddle; [| |assumption].
    + simpl. intuition discriminate.
    + now apply no_open_no_name_open.
Qed.

Section TagFacts.

Context {J : Json}.

Lemma parse_tool_calls_tag (pre tool_name body post : str) :
  contains TOOL_OPEN pre = false ->
  tool_name_ok tool_name -> body_ok body ->
  parse_tool_calls (pre ++ tool_call_tag tool_name body ++ post)
  = decoded tool_name body ++ parse_tool_calls post.
Proof.
  intros Hpre Hname Hbody. unfold parse_tool_calls.
  rewrite finditer_tag by assumption. reflexivity.
Qed.

Lemma parse_tool_calls_nil : parse_tool_calls [] = [].
Proof. reflexivity. Qed.

End TagFacts.

Section ExtractionFacts.

Context {J : Json}.

Lemma extract_inline (lines : list Line) :
  reported_calls lines = [] ->
  extract_tool_calls (fst (read_lines lines new_round))
  = parse_tool_calls (concat (fed_chunks lines)).
Proof.
  intros Hnone. unfold extract_tool_calls.
  rewrite read_lines_found, read_lines_response, Hnone. reflexivity.
Qed.

(** C3: a tag in the documented format whose body decodes, cut at any
    offset [k] into two successive chunks, gives at the end of the round
    the same calls as the tag fed in one chunk: the one call it spells. *)
Theorem split_tag_same_calls (tool_name body : str) (args : JSON)
  (k : nat) (done : bool) :
  tool_name_ok tool_name -> body_ok body ->
  json_loads (strip body) = Some args ->
  let text := tool_call_tag tool_name body in
  let split :=
    fst (read_lines [Data (firstn k text) [] false; Data (skipn k text) [] done]
           new_round) in
  let whole := fst (read_lines [Data text [] done] new_round) in
  extract_tool_calls split = extract_tool_calls whole
  /\ extract_tool_calls whole
     = [{| name := tool_name; arguments := args; raw_match := Some text |}].
Proof.
  intros Hname Hbody Hargs text split whole.
  assert (Hparse : parse_tool_calls text
                   = [{| name := tool_name; arguments := args;
                         raw_match := Some text |}]).
  { pose proof (parse_tool_calls_tag [] tool_name body [] eq_refl Hname Hbody) as Hp.
    rewrite app_nil_r in Hp. simpl app in Hp. fold text in Hp. rewrite Hp.
    unfold decoded. rewrite Hargs. reflexivity. }
  assert (Hw : extract_tool_calls whole = parse_tool_calls text).
  { subst whole. rewrite extract_inline by (now destruct done).
    destruct done; cbn [fed_chunks concat]; now rewrite app_nil_r. }
  assert (Hs : extract_tool_calls split = parse_tool_calls text).
  { subst split. rewrite extract_inline by (now destruct done).
    destruct done; cbn [fed_chunks concat];
      now rewrite app_nil_r, firstn_skipn. }
  rewrite Hs, Hw, Hparse. auto.
Qed.

End ExtractionFacts.

(** ** Stripping a complete tag from the display buffer *)







(** ** A tag received in two chunks *)




Lemma firstn_within {A} (a b : list A) (k : nat) :
  k <= length a -> firstn k (a ++ b) = firstn k a.
Proof.
  revert k. induction a as [|x a IH]; intros k Hk.
  - destruct k; [reflexivity|simpl in Hk; lia].
  - destruct k as [|k]; [reflexivity|]. simpl. f_equal. apply IH. simpl in Hk. lia.
Qed.

Section MalformedTag.

Context {J : Json}.













End MalformedTag.

(** ** The generation loop *)

Section LoopFacts.

Context {J : Json} {B : Backend}.

Lemma rounds_opened_app (tr1 tr2 : list Action) :
  rounds_opened (tr1 ++ tr2) = rounds_opened tr1 + rounds_opened tr2.
Proof. induction tr1 as [|[m|e|n a] tr1 IH]; simpl; auto. Qed.

Lemma rounds_opened_yields (evs : list Event) :
  rounds_opened (map Yield evs) = 0.
Proof. induction evs; simpl; auto. Qed.

Ltac run_tools IH :=
  match goal with
  | |- context [execute_tools ?rest ?m ?w] =>
      pose proof (IH m w) as IH';
      destruct (execute_tools rest m w) as [[? ?] ?]
  end.

(** Executing the calls of a round opens no round and invokes every
    call, in order. *)
Lemma execute_tools_trace (tool_calls : list ToolCall) msgs (w : World) :
  rounds_opened (fst (fst (execute_tools tool_calls msgs w))) = 0
  /\ calls_made (fst (fst (execute_tools tool_calls msgs w)))
     = map (fun tc => (name tc, arguments tc)) tool_calls.
Proof.
  revert msgs w. induction tool_calls as [|tc rest IH]; intros msgs w.
  - split; reflexivity.
  - cbn [execute_tools].
    destruct (call_tool w (name tc) (arguments tc)) as [w1 [result| |error]];
      run_tools IH; simpl in *; destruct IH' as [Hr Hc];
      (split; [assumption|now f_equal]).
Qed.

(** The loop ends within [max_tool_iterations - tool_iteration] further
    rounds, whatever the server and the tools do. *)
Lemma loop_bounded (fuel : nat) (st : LoopState) (w : World) :
  max_tool_iterations - tool_iteration st < fuel ->
  exit (generation_loop fuel st w) <> OutOfFuel
  /\ rounds_opened (trace (generation_loop fuel st w))
     <= max_tool_iterations - tool_iteration st.
Proof.
  revert st w. induction fuel as [|fuel IH]; intros st w Hfuel; [lia|].
  cbn [generation_loop].
  destruct (Nat.ltb_spec (tool_iteration st) max_tool_iterations) as [Hlt|Hge].
  2:{ cbn [trace exit rounds_opened]. split; [discriminate|lia]. }
  destruct (ollama_chat w (formatted_messages st)) as [w1 response].
  destruct (read_lines (resp_lines response) new_round) as [r broke].
  destruct (if broke then None else resp_error response).
  { cbn [trace exit rounds_opened]. rewrite rounds_opened_yields.
    split; [discriminate|lia]. }
  destruct (extract_tool_calls r) as [|tc tcs].
  { cbn [trace exit rounds_opened]. rewrite rounds_opened_yields.
    split; [discriminate|lia]. }
  pose proof (execute_tools_trace (tc :: tcs) (formatted_messages st) w1) as [Hno _].
  destruct (execute_tools (tc :: tcs) (formatted_messages st) w1) as [[tr2 msgs] w2].
  simpl in Hno. cbn [trace exit].
  match goal with
  | |- context [generation_loop fuel ?st2 w2] =>
      destruct (IH st2 w2) as [Hexit Hrounds]; [cbn [tool_iteration]; lia|]
  end.
  split; [assumption|].
  cbn [app rounds_opened]. rewrite !rounds_opened_app, rounds_opened_yields, Hno.
  cbn [tool_iteration] in Hrounds. lia.
Qed.

(** Fuel beyond what the loop needs changes nothing. *)
Lemma loop_more_fuel (fuel fuel' : nat) (st : LoopState) (w : World) :
  max_tool_iterations - tool_iteration st < fuel -> fuel <= fuel' ->
  generation_loop fuel' st w = generation_loop fuel st w.
Proof.
  revert fuel' st w. induction fuel as [|fuel IH]; intros fuel' st w Hfuel Hle; [lia|].
  destruct fuel' as [|fuel']; [lia|].
  cbn [generation_loop].
  destruct (Nat.ltb_spec (tool_iteration st) max_tool_iterations) as [Hlt|Hge];
    [|reflexivity].
  destruct (ollama_chat w (formatted_messages st)) as [w1 response].
  destruct (read_lines (resp_lines response) new_round) as [r broke].
  destruct (if broke then None else resp_error response); [reflexivity|].
  destruct (extract_tool_calls r) as [|tc tcs]; [reflexivity|].
  destruct (execute_tools (tc :: tcs) (formatted_messages st) w1) as [[tr2 msgs] w2].
  rewrite IH; [reflexivity|cbn [tool_iteration]; lia|lia].
Qed.

(** Against a server that asks for a tool in every round, the loop opens
    every round its budget allows and leaves normally. *)
Lemma loop_adversarial (fuel : nat) (st : LoopState) (w : World) :
  (forall w' msgs, requests_tools (snd (ollama_chat w' msgs))) ->
  max_tool_iterations - tool_iteration st < fuel ->
  tool_iteration st <= max_tool_iterations ->
  rounds_opened (trace (generation_loop fuel st w))
  = max_tool_iterations - tool_iteration st
  /\ exit (generation_loop fuel st w) = Normal
  /\ tool_iteration (final_state (generation_loop fuel st w))
     = max_tool_iterations.
Proof.
  intros Hadv. revert st w.
  induction fuel as [|fuel IH]; intros st w Hfuel Hmax; [lia|].
  cbn [generation_loop].
  destruct (Nat.ltb_spec (tool_iteration st) max_tool_iterations) as [Hlt|Hge].
  2:{ cbn [trace exit final_state rounds_opened]. repeat split; lia. }
  pose proof (Hadv w (formatted_messages st)) as Hreq.
  destruct (ollama_chat w (formatted_messages st)) as [w1 response].
  unfold requests_tools in Hreq. cbn [snd] in Hreq.
  destruct (read_lines (resp_lines response) new_round) as [r broke].
  destruct Hreq as [Hok Hsome]. rewrite Hok.
  destruct (extract_tool_calls r) as [|tc tcs]; [contradiction|].
  pose proof (execute_tools_trace (tc :: tcs) (formatted_messages st) w1) as [Hno _].
  destruct (execute_tools (tc :: tcs) (formatted_messages st) w1) as [[tr2 msgs] w2].
  simpl in Hno. cbn [trace exit final_state].
  match goal with
  | |- context [generation_loop fuel ?st2 w2] =>
      destruct (IH st2 w2) as (Hrounds & Hexit & Hfinal);
        [cbn [tool_iteration]; lia|cbn [tool_iteration]; lia|]
  end.
  repeat split; [|assumption|assumption].
  cbn [app rounds_opened]. rewrite !rounds_opened_app, rounds_opened_yields, Hno.
  cbn [tool_iteration] in Hrounds. rewrite Hrounds. lia.
Qed.

End LoopFacts.

Section LoopClaims.

Context {J : Json} {B : Backend}.

Lemma stream_rounds_bounded messages cache (w : World) :
  rounds_opened (fst (fst (stream_ollama_response messages cache w)))
  <= max_tool_iterations.
Proof.
  unfold stream_ollama_response.
  set (st0 := {| formatted_messages := initial_messages messages;
                 tool_iteration := 0; full_response := [] |}).
  destruct (loop_bounded (S max_tool_iterations) st0 w) as [_ Hrounds];
    [cbn [tool_iteration st0]; lia|].
  cbn [tool_iteration st0] in Hrounds.
  destruct (find_matching_template (latest_user_msg messages)) as [[|c t]|];
    try (cbn [fst rounds_opened]; lia);
    destruct (ResponseCache.get md5_hexdigest (clock w) messages cache)
      as [[[|c' r]|] cache1];
    try (cbn [fst rounds_opened]; lia);
    destruct (exit (generation_loop (S max_tool_iterations) st0 w));
    try destruct (nonempty _ && nonempty _);
    try destruct (ResponseCache.set _ _ _ _ _);
    cbn [fst]; rewrite ?rounds_opened_app; cbn [rounds_opened]; lia.
Qed.

(** C1: the generation loop ends whatever the server and the tools do:
    a run needs no more fuel than the iterations left, opens at most
    [max_tool_iterations] rounds, and so does a whole request; against a
    server that asks for a tool call in every round it opens exactly
    [max_tool_iterations] = 3 rounds and then leaves normally. *)
Theorem generation_loop_terminates :
  (forall fuel st (w : World),
      max_tool_iterations - tool_iteration st < fuel ->
      exit (generation_loop fuel st w) <> OutOfFuel
      /\ rounds_opened (trace (generation_loop fuel st w))
         <= max_tool_iterations)
  /\ (forall messages cache (w : World),
        rounds_opened (fst (fst (stream_ollama_response messages cache w)))
        <= max_tool_iterations)
  /\ (forall st (w : World),
        tool_iteration st = 0 ->
        (forall w' msgs, requests_tools (snd (ollama_chat w' msgs))) ->
        rounds_opened (trace (generation_loop (S max_tool_iterations) st w))
        = max_tool_iterations
        /\ exit (generation_loop (S max_tool_iterations) st w) = Normal)
  /\ max_tool_iterations = 3.
Proof.
  split; [|split; [|split]].
  - intros fuel st w Hfuel.
    destruct (loop_bounded fuel st w Hfuel) as [Hexit Hrounds].
    split; [assumption|lia].
  - apply stream_rounds_bounded.
  - intros st w Hzero Hadv.
    destruct (loop_adversarial (S max_tool_iterations) st w Hadv)
      as (Hrounds & Hexit & _); [lia|lia|].
    split; [|assumption]. rewrite Hrounds, Hzero. lia.
  - reflexivity.
Qed.

End LoopClaims.

Section BudgetAndTools.

Context {J : Json} {B : Backend}.

Lemma calls_made_app (tr1 tr2 : list Action) :
  calls_made (tr1 ++ tr2) = calls_made tr1 ++ calls_made tr2.
Proof. induction tr1 as [|[m|e|n a] tr1 IH]; simpl; auto. now f_equal. Qed.

Lemma calls_made_yields (evs : list Event) : calls_made (map Yield evs) = [].
Proof. induction evs; simpl; auto. Qed.

Lemma loop_at_budget (fuel : nat) (st : LoopState) (w : World) :
  max_tool_iterations <= tool_iteration st ->
  generation_loop (S fuel) st w
  = {| trace := []; final_state := st; final_world := w; exit := Normal |}.
Proof.
  intros Hmax. cbn [generation_loop].
  destruct (Nat.ltb_spec (tool_iteration st) max_tool_iterations);
    [lia|reflexivity].
Qed.

(** C2, as the code has it: the loop opens no round once the count has
    reached [max_tool_iterations]; the calls of a round opened at count
    [max_tool_iterations - 1] are all executed, the count becomes
    [max_tool_iterations], and the loop is left normally without a
    further round; after a normal exit the request goes on to the final
    [done] event. *)
Theorem budget_exhaustion_after_last_tools :
  (forall fuel st (w : World),
      max_tool_iterations <= tool_iteration st ->
      generation_loop (S fuel) st w
      = {| trace := []; final_state := st; final_world := w; exit := Normal |})
  /\ (forall fuel st (w w1 : World) response r broke tc tcs,
        tool_iteration st = max_tool_iterations - 1 ->
        ollama_chat w (formatted_messages st) = (w1, response) ->
        read_lines (resp_lines response) new_round = (r, broke) ->
        (if broke then None else resp_error response) = None ->
        extract_tool_calls r = tc :: tcs ->
        let run := generation_loop (S (S fuel)) st w in
        let executed := execute_tools (tc :: tcs) (formatted_messages st) w1 in
        trace run = OpenRound (formatted_messages st)
                    :: map Yield (yielded r) ++ fst (fst executed)
        /\ calls_made (trace run)
           = map (fun c => (name c, arguments c)) (tc :: tcs)
        /\ rounds_opened (trace run) = 1
        /\ tool_iteration (final_state run) = max_tool_iterations
        /\ formatted_messages (final_state run) = snd (fst executed)
        /\ exit run = Normal)
  /\ (forall messages cache (w : World),
        let run :=
          generation_loop (S max_tool_iterations)
            {| formatted_messages := initial_messages messages;
               tool_iteration := 0; full_response := [] |} w in
        find_matching_template (latest_user_msg messages) = None ->
        fst (ResponseCache.get md5_hexdigest (clock w) messages cache) = None ->
        exit run = Normal ->
        exists tail,
          fst (fst (stream_ollama_response messages cache w))
          = trace run ++ Yield done_data :: tail).
Proof.
  split; [|split].
  - apply loop_at_budget.
  - intros fuel st w w1 response r broke tc tcs Hlast Hchat Hread Hok Hcalls run executed.
    subst run executed. remember (S fuel) as fuel1 eqn:Efuel.
    cbn [generation_loop].
    destruct (Nat.ltb_spec (tool_iteration st) max_tool_iterations) as [_|Hge];
      [|unfold max_tool_iterations in *; lia].
    rewrite Hchat, Hread, Hok, Hcalls.
    pose proof (execute_tools_trace (tc :: tcs) (formatted_messages st) w1)
      as [Hno Hmade].
    destruct (execute_tools (tc :: tcs) (formatted_messages st) w1)
      as [[tr2 msgs] w2].
    cbn [fst snd] in *. subst fuel1.
    rewrite loop_at_budget
      by (cbn [tool_iteration]; unfold max_tool_iterations in *; lia).
    cbn [trace exit final_state tool_iteration formatted_messages].
    rewrite app_nil_r. repeat split.
    + cbn [calls_made app]. now rewrite calls_made_app, calls_made_yields.
    + cbn [rounds_opened app].
      now rewrite rounds_opened_app, rounds_opened_yields, Hno.
    + rewrite Hlast. reflexivity.
  - intros messages cache w run Htemplate Hmiss Hexit.
    unfold stream_ollama_response. rewrite Htemplate.
    destruct (ResponseCache.get md5_hexdigest (clock w) messages cache)
      as [cached cache1].
    cbn [fst] in Hmiss. subst cached. fold run. rewrite Hexit.
    destruct (nonempty _ && nonempty _).
    + destruct (ResponseCache.set _ _ _ _ _); cbn [fst]; eauto.
    + cbn [fst]. eauto.
Qed.

(** C9, as the code has it: every call of the round is invoked, in
    order, whatever the earlier ones did; a call that raises puts one
    inline error event in the stream, and no other event is produced; a
    call that returns a falsy result adds to the messages its assistant
    entry and a tool entry holding the failure marker; the messages only
    grow. *)
Theorem tool_failures_are_local (tool_calls : list ToolCall)
  (msgs : list Message) (w : World) :
  let run := execute_tools tool_calls msgs w in
  let results := combine tool_calls (outcomes tool_calls w) in
  calls_made (fst (fst run))
  = map (fun tc => (name tc, arguments tc)) tool_calls
  /\ length (outcomes tool_calls w) = length tool_calls
  /\ events (fst (fst run))
     = flat_map
         (fun p =>
            match snd p with
            | Raised error => [passthrough (error_text (name (fst p)) error)]
            | _ => []
            end) results
  /\ exists added,
       snd (fst run) = msgs ++ added
       /\ forall tc,
            In (tc, ReturnedFalsy) results ->
            In (assistant_tool_call (name tc) (arguments tc)) added
            /\ In (tool_result (name tc) TOOL_FAILED) added.
Proof.
  cbv zeta. revert msgs w.
  induction tool_calls as [|tc rest IH]; intros msgs w.
  - repeat split. exists []. split; [now rewrite app_nil_r|intros ? []].
  - cbn [execute_tools outcomes].
    destruct (call_tool w (name tc) (arguments tc)) as [w1 [result| |error]].
    + destruct (IH (msgs ++ [assistant_tool_call (name tc) (arguments tc);
                             tool_result (name tc) (json_dumps result)]) w1)
        as (Hc & Hl & He & added & Hm & Hf).
      destruct (execute_tools rest _ w1) as [[tr m] w2].
      cbn [fst snd] in *. cbn [calls_made events map length combine flat_map snd app].
      repeat split; [now f_equal|now f_equal|assumption|].
      eexists. split; [rewrite Hm, <- app_assoc; reflexivity|].
      intros tc' [Heq|Hin]; [discriminate|].
      destruct (Hf tc' Hin). split; apply in_or_app; now right.
    + destruct (IH (msgs ++ [assistant_tool_call (name tc) (arguments tc);
                             tool_result (name tc) TOOL_FAILED]) w1)
        as (Hc & Hl & He & added & Hm & Hf).
      destruct (execute_tools rest _ w1) as [[tr m] w2].
      cbn [fst snd] in *. cbn [calls_made events map length combine flat_map snd app].
      repeat split; [now f_equal|now f_equal|assumption|].
      eexists. split; [rewrite Hm, <- app_assoc; reflexivity|].
      intros tc' [Heq|Hin].
      * injection Heq as <-. split; apply in_or_app; left; simpl; auto.
      * destruct (Hf tc' Hin). split; apply in_or_app; now right.
    + destruct (IH msgs w1) as (Hc & Hl & He & added & Hm & Hf).
      destruct (execute_tools rest msgs w1) as [[tr m] w2].
      cbn [fst snd] in *. cbn [calls_made events map length combine flat_map snd fst app].
      repeat split; [now f_equal|now f_equal|now f_equal|].
      exists added. split; [assumption|].
      intros tc' [Heq|Hin]; [discriminate|auto].
Qed.

End BudgetAndTools.

(** ** The properties on concrete runs *)

(** C4: the opening marker cut between two chunks.  Fed in one chunk the
    tag yields nothing; fed as [<tool_] and the rest, both pieces go out
    to the client as passthrough text, although together they are a
    complete tag that is then also extracted as a call. *)
Theorem split_opening_marker_leaks :
  let first := lit "<tool_" in
  let second :=
    lit "call name=" ++ [dquote] ++ lit "x" ++ [dquote] ++ lit ">{}</tool_call>" in
  let split :=
    fst (read_lines (J := brace_json)
           [Data first [] false; Data second [] true] new_round) in
  let whole :=
    fst (read_lines (J := brace_json) [Data (first ++ second) [] true] new_round) in
  first ++ second = tool_call_tag (lit "x") (lit "{}")
  /\ yielded whole = []
  /\ yielded split = [passthrough first; passthrough second]
  /\ extract_tool_calls split
     = [@Build_ToolCall brace_json (lit "x") (lit "{}") (Some (first ++ second))].
Proof. vm_compute. repeat split. Qed.

(** C8 fails where the opening marker of the tag is cut between two
    chunks.  The tag [<tool_call name=QxQ>oops</tool_call>] (Q the double
    quote) has a body that does not decode.  Received in one chunk it is
    stripped: the client gets the text before it and the text after it.
    Cut at any of the offsets 1 to 9, inside the opening marker, both
    chunks go out as they came, so the client gets the whole tag.  The
    call is dropped either way.  The leak is that of the opening marker
    split between chunks, shown above on a tag that decodes. *)
Theorem malformed_tag_split_in_marker_leaks :
  let tag := tool_call_tag (lit "x") (lit "oops") in
  let cut k :=
    fst (read_lines (J := brace_json)
           [Data (lit "Sure, " ++ firstn k tag) [] false;
            Data (skipn k tag ++ lit " more") [] true] new_round) in
  let whole :=
    fst (read_lines (J := brace_json)
           [Data (lit "Sure, " ++ tag ++ lit " more") [] true] new_round) in
  json_loads (Json := brace_json) (strip (lit "oops")) = None
  /\ yielded whole = [passthrough (lit "Sure, "); passthrough (lit " more")]
  /\ extract_tool_calls whole = []
  /\ Forall
       (fun k =>
          yielded (cut k)
          = [passthrough (lit "Sure, " ++ firstn k tag);
             passthrough (skipn k tag ++ lit " more")]
          /\ concat (map ev_content (yielded (cut k)))
             = lit "Sure, " ++ tag ++ lit " more"
          /\ extract_tool_calls (cut k) = [])
       (seq 1 9).
Proof.
  intros tag cut whole.
  split; [reflexivity|]. split; [reflexivity|]. split; [reflexivity|].
  cbn [seq].
  repeat (apply Forall_cons; [vm_compute; repeat split|]).
  apply Forall_nil.
Qed.

Lemma generation_loop_terminates_witness :
  (exit (generation_loop (B := nagging_backend) 4 idle 0%nat) <> OutOfFuel
   /\ rounds_opened (trace (generation_loop (B := nagging_backend) 4 idle 0%nat))
      <= max_tool_iterations)
  /\ rounds_opened (trace (generation_loop (B := nagging_backend)
                             (S max_tool_iterations) idle 0%nat))
     = max_tool_iterations
  /\ exit (generation_loop (B := nagging_backend)
             (S max_tool_iterations) idle 0%nat) = Normal.
Proof.
  destruct (@generation_loop_terminates brace_json nagging_backend)
    as (Hany & _ & Hadv & _).
  split.
  - apply (Hany 4 idle 0%nat). unfold max_tool_iterations. simpl. lia.
  - apply (Hadv idle 0%nat).
    + reflexivity.
    + intros w' msgs. vm_compute. split; [reflexivity|discriminate].
Defined.

(** C2 as stated fails: against the server that always asks for [ping],
    the loop leaves normally after [max_tool_iterations] rounds, and the
    call reported by the last of them has been executed. *)
Lemma last_round_calls_are_executed :
  let run := generation_loop (B := nagging_backend)
               (S max_tool_iterations) idle 0%nat in
  exit run = Normal
  /\ rounds_opened (trace run) = max_tool_iterations
  /\ tool_iteration (final_state run) = max_tool_iterations
  /\ calls_made (after_round max_tool_iterations (trace run))
     = [(lit "ping", empty_args)]
  /\ calls_made (after_round max_tool_iterations (trace run)) <> [].
Proof. vm_compute. repeat split. discriminate. Qed.

Lemma budget_exhaustion_after_last_tools_witness :
  let st := at_count 2 in
  let run := generation_loop (B := nagging_backend) 2 st 0%nat in
  generation_loop (B := nagging_backend) 1 (at_count 3) 0%nat
  = @Build_LoopResult brace_json nagging_backend [] (at_count 3) 0%nat Normal
  /\ (calls_made (trace run) = [(lit "ping", empty_args)]
      /\ rounds_opened (trace run) = 1
      /\ tool_iteration (final_state run) = max_tool_iterations
      /\ exit run = Normal)
  /\ exists tail,
       fst (fst (stream_ollama_response (B := nagging_backend)
                   [user_says "hi"] (ResponseCache.init 100 3600) 0%nat))
       = trace (generation_loop (B := nagging_backend) (S max_tool_iterations)
                  (@Build_LoopState brace_json
                     (initial_messages (B := nagging_backend) [user_says "hi"])
                     0 []) 0%nat)
         ++ Yield done_data :: tail.
Proof.
  intros st run.
  destruct (@budget_exhaustion_after_last_tools brace_json nagging_backend)
    as (Hstop & Hlast & Hdone).
  split; [|split].
  - apply (Hstop 0). unfold max_tool_iterations. simpl. lia.
  - destruct (Hlast 0 st 0%nat 1%nat
                {| resp_lines := [@Data brace_json [] [bare_call "ping"] true];
                   resp_error := None |}
                (fst (read_lines [@Data brace_json [] [bare_call "ping"] true]
                        new_round))
                true (native_call (bare_call "ping")) [])
      as (_ & Hcalls & Hrounds & Hcount & _ & Hexit);
      try reflexivity.
    repeat split; assumption.
  - apply (Hdone [user_says "hi"] (ResponseCache.init 100 3600) 0%nat);
      reflexivity.
Defined.

Lemma split_tag_same_calls_witness :
  let text := tool_call_tag (lit "x") sample_body in
  let split :=
    fst (read_lines (J := brace_json)
           [Data (firstn 7 text) [] false; Data (skipn 7 text) [] true]
           new_round) in
  let whole := fst (read_lines (J := brace_json) [Data text [] true] new_round) in
  extract_tool_calls split = extract_tool_calls whole
  /\ extract_tool_calls whole
     = [@Build_ToolCall brace_json (lit "x") sample_body (Some text)].
Proof.
  apply (@split_tag_same_calls brace_json (lit "x") sample_body sample_body 7 true).
  - split; [discriminate|simpl; intuition discriminate].
  - reflexivity.
  - reflexivity.
Defined.

Lemma plain_text_passes_through_witness :
  let lines := [@Data brace_json (lit "Hel") [] false; Blank;
                Data (lit "lo") [] true] in
  let r := fst (read_lines lines new_round) in
  yielded r = [passthrough (lit "Hel"); passthrough (lit "lo")]
  /\ concat (map ev_content (yielded r)) = lit "Hello"
  /\ Forall (fun e => ev_done e = false) (yielded r)
  /\ display_buffer r = [].
Proof.
  apply (@plain_text_passes_through brace_json
           [@Data brace_json (lit "Hel") [] false; Blank; Data (lit "lo") [] true]).
  reflexivity.
Defined.

Lemma structured_calls_take_precedence_witness :
  let calls :=
    extract_tool_calls
      (fst (read_lines (J := brace_json)
              [Data (tool_call_tag (lit "x") sample_body) [bare_call "ping"] false;
               Data [] [bare_call "pong"] true]
              new_round)) in
  map name calls = [lit "ping"; lit "pong"]
  /\ map arguments calls = [empty_args; empty_args]
  /\ Forall (fun call => raw_match call = None) calls.
Proof.
  apply (@structured_calls_take_precedence brace_json
           [Data (tool_call_tag (lit "x") sample_body) [bare_call "ping"] false;
            Data [] [bare_call "pong"] true]).
  discriminate.
Defined.

(** C9 as stated fails: the tool [boom] raises; the error event is sent,
    and the message list is left as it was, without a tool entry. *)
Lemma raising_tool_leaves_no_entry :
  let call := native_call (bare_call "boom") in
  let run := execute_tools (B := faulty_tools_backend) [call] [] 0%nat in
  outcomes (B := faulty_tools_backend) [call] 0%nat = [Raised (lit "timeout")]
  /\ events (fst (fst run))
     = [passthrough (error_text (lit "boom") (lit "timeout"))]
  /\ snd (fst run) = []
  /\ ~ In (tool_result (lit "boom") TOOL_FAILED) (snd (fst run)).
Proof. vm_compute. repeat split. intros []. Qed.

Lemma tool_failures_are_local_witness :
  let run := execute_tools (B := faulty_tools_backend) faulty_calls [] 0%nat in
  calls_made (fst (fst run)) = [(lit "boom", empty_args); (lit "void", empty_args)]
  /\ events (fst (fst run))
     = [passthrough (error_text (lit "boom") (lit "timeout"))]
  /\ exists added,
       snd (fst run) = [] ++ added
       /\ In (tool_result (lit "void") TOOL_FAILED) added.
Proof.
  intros run.
  destruct (@tool_failures_are_local brace_json faulty_tools_backend
              faulty_calls [] 0%nat) as (Hcalls & _ & Hevents & added & Hm & Hf).
  split; [exact Hcalls|]. split; [exact Hevents|].
  exists added. split; [exact Hm|].
  apply (Hf (native_call (bare_call "void"))).
  right. left. reflexivity.
Defined.

(** * Further properties *)

(** ** Lookups and stores of the response cache *)

Module ResponseCacheMore.
Import ResponseCache ResponseCacheFacts.

Lemma dict_get_del_other k k' d :
  k <> k' -> dict_get k (dict_del k' d) = dict_get k d.
Proof.
  intros Hne. induction d as [|[k2 v2] d IH]; simpl; [reflexivity|].
  destruct (str_eqb k' k2) eqn:E; simpl.
  - apply str_eqb_eq in E. subst. now rewrite str_eqb_neq.
  - now rewrite IH.
Qed.

Lemma length_dict_set_present k v v0 d :
  dict_get k d = Some v0 -> length (dict_set k v d) = length d.
Proof.
  induction d as [|[k2 v2] d IH]; simpl; [discriminate|].
  destruct (str_eqb k k2); simpl; [reflexivity|].
  intros Hg. now rewrite IH.
Qed.

Lemma oldest_key_none d : oldest_key d = None <-> d = [].
Proof.
  destruct d as [|[k [r ts]] d]; simpl; split; intros H; try discriminate; auto.
Qed.

Section WithHash.

Variable md5 : str -> str.

(** A lookup at or after [ttl_seconds] past the creation of the entry is
    a miss and deletes the entry: the cache has one entry less, every
    later lookup of the same messages misses and changes nothing, and
    the other keys are untouched. *)
Theorem expired_entry_is_removed now messages (c : t) response timestamp :
  NoDup (keys (cache c)) ->
  dict_get (_get_cache_key md5 messages) (cache c) = Some (response, timestamp) ->
  (ttl_seconds c <= now - timestamp)%Z ->
  let c' := snd (get md5 now messages c) in
  fst (get md5 now messages c) = None
  /\ S (length (cache c')) = length (cache c)
  /\ (forall now', get md5 now' messages c' = (None, c'))
  /\ (forall k, k <> _get_cache_key md5 messages ->
                dict_get k (cache c') = dict_get k (cache c)).
Proof.
  intros Hnd Hget Hold. unfold get. rewrite Hget.
  destruct (Z.ltb_spec (now - timestamp) (ttl_seconds c)) as [Hlt|_]; [lia|].
  cbn [fst snd]. unfold with_cache. cbn [cache].
  repeat split.
  - apply length_dict_del. eapply dict_get_some_in; eauto.
  - intros now'. cbn [cache]. now rewrite dict_get_del_same.
  - intros k Hk. now apply dict_get_del_other.
Qed.

(** A stored response is found by a lookup of the same messages less
    than [ttl_seconds] later, and the hit changes nothing in the cache,
    the timestamp included: after any such hit the entry still expires
    [ttl_seconds] after the store. *)
Theorem stored_response_is_found now now' now'' messages response (c c' : t) :
  set md5 now messages response c = Some c' ->
  (now' - now < ttl_seconds c)%Z ->
  (ttl_seconds c <= now'' - now)%Z ->
  get md5 now' messages c' = (Some response, c')
  /\ fst (get md5 now'' messages (snd (get md5 now' messages c'))) = None.
Proof.
  intros Hset Hfresh Hold.
  assert (Hc' : dict_get (_get_cache_key md5 messages) (cache c')
                = Some (response, now) /\ ttl_seconds c' = ttl_seconds c).
  { unfold set in Hset.
    destruct (max_size c <=? Z.of_nat (length (cache c)))%Z.
    - destruct (oldest_key (cache c)); [|discriminate].
      injection Hset as <-. split; [apply dict_get_set_same|reflexivity].
    - injection Hset as <-. split; [apply dict_get_set_same|reflexivity]. }
  destruct Hc' as [Hget Httl].
  assert (Hhit : get md5 now' messages c' = (Some response, c')).
  { unfold get. rewrite Hget, Httl.
    destruct (Z.ltb_spec (now' - now) (ttl_seconds c)); [reflexivity|lia]. }
  split; [exact Hhit|].
  rewrite Hhit. cbn [snd]. unfold get. rewrite Hget, Httl.
  destruct (Z.ltb_spec (now'' - now) (ttl_seconds c)); [lia|reflexivity].
Qed.

(** [set] raises (the [ValueError] of [min] on no key) exactly when the
    cache is empty and its capacity is zero or less; with a capacity of
    one or more every store succeeds. *)
Theorem set_raises_only_without_capacity now messages response (c : t) :
  set md5 now messages response c = None
  <-> cache c = [] /\ (max_size c <= 0)%Z.
Proof.
  unfold set. split.
  - destruct (Z.leb_spec (max_size c) (Z.of_nat (length (cache c)))) as [Hfull|_];
      [|discriminate].
    destruct (oldest_key (cache c)) eqn:E; [discriminate|].
    apply oldest_key_none in E. intros _. rewrite E in *. simpl in Hfull.
    split; [reflexivity|lia].
  - intros [Hempty Hcap]. rewrite Hempty. simpl.
    destruct (Z.leb_spec (max_size c) 0); [reflexivity|lia].
Qed.

(** Storing again under a key the full cache already holds still evicts
    the oldest entry: unless that key is itself the oldest, the cache
    ends with one entry less, without the oldest, and with the new
    response under the key. *)
Theorem overwrite_in_full_cache_evicts now messages response (c c' : t)
  oldest previous :
  NoDup (keys (cache c)) ->
  (max_size c <= Z.of_nat (length (cache c)))%Z ->
  dict_get (_get_cache_key md5 messages) (cache c) = Some previous ->
  oldest_key (cache c) = Some oldest ->
  oldest <> _get_cache_key md5 messages ->
  set md5 now messages response c = Some c' ->
  S (length (cache c')) = length (cache c)
  /\ dict_get oldest (cache c') = None
  /\ dict_get (_get_cache_key md5 messages) (cache c') = Some (response, now).
Proof.
  intros Hnd Hfull Hprev Hold Hne. unfold set.
  destruct (Z.leb_spec (max_size c) (Z.of_nat (length (cache c)))); [|lia].
  rewrite Hold. intros [= <-]. unfold with_cache. cbn [cache].
  repeat split.
  - rewrite (length_dict_set_present _ _ previous).
    + apply length_dict_del.
      destruct (oldest_key_spec _ _ Hold) as (r & ts & Hin & _).
      eapply entry_key_in; eauto.
    + rewrite dict_get_del_other by congruence. exact Hprev.
  - rewrite dict_get_set_other by assumption. now apply dict_get_del_same.
  - apply dict_get_set_same.
Qed.

End WithHash.

Lemma expired_entry_is_removed_witness :
  let c := {| cache := [(lit "user:hi", (lit "hello", 0%Z))];
              max_size := 100; ttl_seconds := 3600 |} in
  let c' := snd (get plain_key 3600 [user_says "hi"] c) in
  fst (get plain_key 3600 [user_says "hi"] c) = None
  /\ S (length (cache c')) = length (cache c)
  /\ (forall now', get plain_key now' [user_says "hi"] c' = (None, c'))
  /\ (forall k, k <> _get_cache_key plain_key [user_says "hi"] ->
                dict_get k (cache c') = dict_get k (cache c)).
Proof.
  apply (expired_entry_is_removed plain_key 3600%Z [user_says "hi"]
           {| cache := [(lit "user:hi", (lit "hello", 0%Z))];
              max_size := 100; ttl_seconds := 3600 |} (lit "hello") 0%Z).
  - simpl. repeat constructor. intros [].
  - reflexivity.
  - simpl. lia.
Defined.

Lemma stored_response_is_found_witness :
  exists c' : t,
    set plain_key 0 [user_says "hi"] (lit "hello") (init 100 3600) = Some c'
    /\ get plain_key 3599 [user_says "hi"] c' = (Some (lit "hello"), c')
    /\ fst (get plain_key 3600 [user_says "hi"]
              (snd (get plain_key 3599 [user_says "hi"] c'))) = None.
Proof.
  eexists. split; [reflexivity|].
  apply (stored_response_is_found plain_key 0%Z 3599%Z 3600%Z
           [user_says "hi"] (lit "hello") (init 100 3600)).
  - reflexivity.
  - simpl. lia.
  - simpl. lia.
Defined.

Lemma set_raises_only_without_capacity_witness :
  set plain_key 0 [user_says "hi"] (lit "hello") (init 0 3600) = None.
Proof.
  apply (proj2 (set_raises_only_without_capacity plain_key 0%Z
                  [user_says "hi"] (lit "hello") (init 0 3600))).
  split; [reflexivity|simpl; lia].
Defined.

Lemma overwrite_in_full_cache_evicts_witness :
  let c := {| cache := [(lit "user:a", (lit "A", 1%Z)); (lit "user:b", (lit "B", 2%Z))];
              max_size := 2; ttl_seconds := 3600 |} in
  exists c' : t,
    set plain_key 3 [user_says "b"] (lit "B2") c = Some c'
    /\ S (length (cache c')) = length (cache c)
    /\ dict_get (lit "user:a") (cache c') = None
    /\ dict_get (_get_cache_key plain_key [user_says "b"]) (cache c')
       = Some (lit "B2", 3%Z).
Proof.
  intros c. eexists. split; [reflexivity|].
  apply (overwrite_in_full_cache_evicts plain_key 3%Z [user_says "b"] (lit "B2")
           c _ (lit "user:a") (lit "B", 2%Z)).
  - simpl. repeat constructor; simpl; intuition discriminate.
  - simpl. lia.
  - reflexivity.
  - reflexivity.
  - discriminate.
  - reflexivity.
Defined.

End ResponseCacheMore.

(** ** Token budget *)

Lemma lower_char_idempotent (c : ascii) : lower_char (lower_char c) = lower_char c.
Proof. destruct c as [[] [] [] [] [] [] [] []]; reflexivity. Qed.

Lemma lower_idempotent (s : str) : lower (lower s) = lower s.
Proof.
  unfold lower. rewrite map_map. apply map_ext. apply lower_char_idempotent.
Qed.

Lemma lower_app (a b : str) : lower (a ++ b) = lower a ++ lower b.
Proof. apply map_app. Qed.

Lemma rev_snoc {A} (l : list A) (x : A) : rev (l ++ [x]) = x :: rev l.
Proof. now rewrite rev_app_distr. Qed.

(** The token budget depends on the last message only, and on its text
    only up to letter case; it is one of 256, 768, 1024 and the default;
    without messages it is the default.  The length tested is that of
    the lower-cased text: when it is below 50 the budget is 256 whatever
    the message asks for, and from 50 on a code keyword gives 1024 even
    beside an explanation keyword. *)
Theorem token_budget_rules :
  (forall earlier last default_max,
      get_optimal_max_tokens (earlier ++ [last]) default_max
      = get_optimal_max_tokens [last] default_max)
  /\ (forall r text default_max,
        get_optimal_max_tokens [{| role := r; content := lower text |}] default_max
        = get_optimal_max_tokens [{| role := r; content := text |}] default_max)
  /\ (forall messages default_max,
        In (get_optimal_max_tokens messages default_max)
           [256; 768; 1024; default_max]%Z)
  /\ (forall default_max, get_optimal_max_tokens [] default_max = default_max)
  /\ (forall earlier last default_max,
        length (lower (content last)) < 50 ->
        get_optimal_max_tokens (earlier ++ [last]) default_max = 256%Z)
  /\ (forall earlier last kw default_max,
        50 <= length (lower (content last)) ->
        In kw code_keywords ->
        contains kw (lower (content last)) = true ->
        get_optimal_max_tokens (earlier ++ [last]) default_max = 1024%Z).
Proof.
  assert (Hlast : forall earlier last default_max,
             get_optimal_max_tokens (earlier ++ [last]) default_max
             = get_optimal_max_tokens [last] default_max).
  { intros. unfold get_optimal_max_tokens. now rewrite rev_snoc. }
  split; [exact Hlast|]. split; [|split; [|split; [|split]]].
  - intros r text d. unfold get_optimal_max_tokens. cbn [rev app content].
    now rewrite lower_idempotent.
  - intros messages d. unfold get_optimal_max_tokens.
    destruct (rev messages) as [|last rest]; [simpl; auto|].
    destruct (_ <? 50); [simpl; auto|].
    destruct (any_in code_keywords _); [simpl; auto|].
    destruct (any_in explain_keywords _); simpl; auto.
  - reflexivity.
  - intros earlier last d Hshort. rewrite Hlast.
    unfold get_optimal_max_tokens. cbn [rev app].
    destruct (Nat.ltb_spec (length (lower (content last))) 50); [reflexivity|lia].
  - intros earlier last kw d Hlong Hkw Hin. rewrite Hlast.
    unfold get_optimal_max_tokens. cbn [rev app].
    destruct (Nat.ltb_spec (length (lower (content last))) 50); [lia|].
    replace (any_in code_keywords (lower (content last))) with true; [reflexivity|].
    symmetry. unfold any_in. apply existsb_exists. eauto.
Qed.

Lemma token_budget_rules_witness :
  get_optimal_max_tokens [user_says "hello"; user_says "write code"] 512 = 256%Z
  /\ get_optimal_max_tokens
       [user_says "Explain why and then WRITE the whole parser for me in Python"]
       512 = 1024%Z.
Proof.
  destruct token_budget_rules as (_ & _ & _ & _ & Hshort & Hcode).
  split.
  - apply (Hshort [user_says "hello"] (user_says "write code") 512%Z).
    simpl. lia.
  - apply (Hcode []
             (user_says "Explain why and then WRITE the whole parser for me in Python")
             (lit "write") 512%Z).
    + simpl. lia.
    + simpl. tauto.
    + reflexivity.
Defined.

(** ** History truncation *)

Lemma slice_from_end {A} (m : Z) (l : list A) :
  (0 < m <= Z.of_nat (length l))%Z ->
  slice_from (- m) l = skipn (length l - Z.to_nat m) l.
Proof.
  intros Hm. unfold slice_from.
  destruct (Z.ltb_spec (- m) 0); [|lia].
  f_equal. lia.
Qed.

Lemma filter_idem {A} (f : A -> bool) (l : list A) :
  filter f (filter f l) = filter f l.
Proof.
  induction l as [|x l IH]; simpl; [reflexivity|].
  destruct (f x) eqn:E; simpl; rewrite ?E; congruence.
Qed.

Lemma slice_from_zero {A} (l : list A) : slice_from (- 0) l = l.
Proof. unfold slice_from. simpl. now rewrite Z.min_l by lia. Qed.

(** A history within [max_messages] is returned as it is.  A longer one
    (with [max_messages] positive) always keeps its last [max_messages]
    messages, in order, at the end of the result: alone when the first
    of them is a system message, and otherwise after all the system
    messages of the history; in that second case every system message
    among the recent ones is in the result twice. *)
Theorem truncate_history_keeps_recent messages max_messages max_context_tokens :
  ((Z.of_nat (length messages) <= max_messages)%Z ->
   truncate_history messages max_messages max_context_tokens = messages)
  /\ ((0 < max_messages < Z.of_nat (length messages))%Z ->
      let recent := skipn (length messages - Z.to_nat max_messages) messages in
      let result := truncate_history messages max_messages max_context_tokens in
      length recent = Z.to_nat max_messages
      /\ exists first rest,
           recent = first :: rest
           /\ (is_system first = true -> result = recent)
           /\ (is_system first = false ->
               result = filter is_system messages ++ recent
               /\ length (filter is_system result)
                  = length (filter is_system messages)
                    + length (filter is_system recent))).
Proof.
  split.
  - intros Hfit. unfold truncate_history.
    destruct (Z.leb_spec (Z.of_nat (length messages)) max_messages); [reflexivity|lia].
  - intros Hlong recent result.
    assert (Hlen : length recent = Z.to_nat max_messages).
    { subst recent. rewrite length_skipn. lia. }
    split; [exact Hlen|].
    destruct recent as [|first rest] eqn:Erecent; [simpl in Hlen; lia|].
    exists first, rest. split; [reflexivity|].
    subst result. unfold truncate_history.
    destruct (Z.leb_spec (Z.of_nat (length messages)) max_messages); [lia|].
    rewrite slice_from_end by lia. fold recent. rewrite Erecent.
    split; intros Hsys; rewrite Hsys; [reflexivity|].
    split; [reflexivity|].
    rewrite filter_app, length_app. now rewrite filter_idem.
Qed.

Lemma truncate_history_keeps_recent_witness :
  let system := {| role := lit "system"; content := lit "S" |} in
  let messages := [user_says "a"; user_says "b"; system; user_says "c"] in
  truncate_history messages 4 2000 = messages
  /\ truncate_history messages 3 2000
     = [system; user_says "b"; system; user_says "c"]
  /\ length (filter is_system (truncate_history messages 3 2000)) = 2.
Proof.
  intros system messages.
  destruct (truncate_history_keeps_recent messages 4 2000) as [Hfit _].
  destruct (truncate_history_keeps_recent messages 3 2000) as [_ Hlong].
  split; [apply Hfit; simpl; lia|].
  destruct Hlong as (_ & first & rest & Hrecent & _ & Hplain); [simpl; lia|].
  injection Hrecent as <- <-.
  destruct (Hplain eq_refl) as [Hresult Hcount].
  split; [exact Hresult|exact Hcount].
Defined.

(** With [max_messages = 0] nothing is cut: the slice [messages[-0:]] is
    the whole history.  A non-empty history that starts with a system
    message comes back as it is; any other non-empty history comes back
    whole after a second copy of all its system messages, so that each
    of them is in the result twice. *)
Theorem truncate_history_zero_keeps_all first rest max_context_tokens :
  let messages := first :: rest in
  let result := truncate_history messages 0 max_context_tokens in
  (is_system first = true -> result = messages)
  /\ (is_system first = false ->
      result = filter is_system messages ++ messages
      /\ length (filter is_system result)
         = 2 * length (filter is_system messages)).
Proof.
  intros messages result. subst result messages. unfold truncate_history.
  destruct (Z.leb_spec (Z.of_nat (length (first :: rest))) 0) as [Hle|_];
    [simpl in Hle; lia|].
  rewrite slice_from_zero.
  split; intros Hsys; rewrite Hsys; [reflexivity|].
  split; [reflexivity|].
  rewrite filter_app, length_app, filter_idem. lia.
Qed.

Lemma truncate_history_zero_keeps_all_witness :
  let system := {| role := lit "system"; content := lit "S" |} in
  truncate_history [system; user_says "a"] 0 2000 = [system; user_says "a"]
  /\ truncate_history [user_says "a"; system; user_says "b"] 0 2000
     = [system; user_says "a"; system; user_says "b"]
  /\ length (filter is_system
               (truncate_history [user_says "a"; system; user_says "b"] 0 2000))
     = 2.
Proof.
  intros system. split.
  - apply (truncate_history_zero_keeps_all system [user_says "a"] 2000).
    reflexivity.
  - apply (truncate_history_zero_keeps_all (user_says "a")
             [system; user_says "b"] 2000).
    reflexivity.
Defined.

(** ** Model choice *)

Lemma any_in_app (keywords : list str) (pre text post : str) :
  any_in keywords text = true -> any_in keywords (pre ++ text ++ post) = true.
Proof.
  unfold any_in. rewrite !existsb_exists. intros (kw & Hin & Hc).
  exists kw. split; [assumption|].
  now apply contains_app_r, contains_app_l.
Qed.

(** The model is the fast one or the default one; the choice does not
    depend on letter case; and a query that gets the fast model still
    gets it with any text put before and after it, since the keywords
    are looked for as substrings. *)
Theorem fast_model_choice (query : str) :
  (get_model_for_query query = FAST_MODEL
   \/ get_model_for_query query = DEFAULT_MODEL)
  /\ get_model_for_query (lower query) = get_model_for_query query
  /\ (forall pre post,
        get_model_for_query query = FAST_MODEL ->
        get_model_for_query (pre ++ query ++ post) = FAST_MODEL).
Proof.
  unfold get_model_for_query, should_use_fast_model. repeat split.
  - destruct (any_in _ _); auto.
  - now rewrite lower_idempotent.
  - intros pre post.
    destruct (any_in SIMPLE_QUERY_KEYWORDS (lower query)) eqn:E; [|discriminate].
    intros _. rewrite !lower_app.
    now rewrite (any_in_app _ (lower pre) (lower query) (lower post) E).
Qed.

Lemma fast_model_choice_witness :
  get_model_for_query (lit "I " ++ lit "KNOW" ++ lit " this already")
  = FAST_MODEL.
Proof.
  apply (proj2 (proj2 (fast_model_choice (lit "KNOW")))).
  reflexivity.
Defined.

(** ** What the display buffer lets through *)

Lemma find_in_longer (p u v : str) (j : nat) :
  find p v = Some j -> exists j', find p (u ++ v) = Some j' /\ j' <= length u + j.
Proof.
  intros Hv. induction u as [|x u IH].
  - exists j. split; [exact Hv|simpl; lia].
  - destruct IH as (j' & Hf & Hle).
    change ((x :: u) ++ v) with (x :: u ++ v). cbn [find].
    destruct (starts_with p (x :: u ++ v)).
    + exists 0. split; [reflexivity|lia].
    + rewrite Hf. exists (S j'). split; [reflexivity|simpl; lia].
Qed.

Lemma skipn_keeps_suffix {A} (u v : list A) (m n : nat) :
  m <= length u + n -> exists x, skipn m (u ++ v) = x ++ skipn n v.
Proof.
  revert m. induction u as [|a u IH]; intros m Hm.
  - simpl in *. exists (firstn (n - m) (skipn m v)).
    rewrite <- (firstn_skipn (n - m) (skipn m v)) at 1. f_equal.
    rewrite skipn_skipn. f_equal. lia.
  - destruct m as [|m].
    + exists ((a :: u) ++ firstn n v). rewrite <- app_assoc.
      now rewrite firstn_skipn.
    + simpl. apply IH. simpl in Hm. lia.
Qed.

Lemma search_tag_split (s before_tool after_tool : str) :
  search_tag s = Some (before_tool, after_tool) ->
  exists t n, s = before_tool ++ t /\ match_tag t = Some n
              /\ after_tool = skipn n t.
Proof.
  revert before_tool. induction s as [|c s IH]; intros b; cbn [search_tag].
  - destruct (match_tag []) as [n|] eqn:E; [|discriminate].
    intros [= <- <-]. exists [], n. auto.
  - destruct (match_tag (c :: s)) as [n|] eqn:E.
    + intros [= <- <-]. exists (c :: s), n. auto.
    + destruct (search_tag s) as [[b' a']|]; [|discriminate].
      intros [= <- <-]. destruct (IH b' eq_refl) as (t & n & -> & Hm & Ha).
      exists t, n. auto.
Qed.

(** The tag pattern matches wherever the opening marker stands before a
    place where it matches. *)
Lemma match_tag_earlier (b t : str) (n : nat) :
  starts_with TOOL_OPEN b = true ->
  match_tag t = Some n ->
  exists n', match_tag (b ++ t) = Some n'.
Proof.
  intros Hb Ht. unfold match_tag in *.
  rewrite (starts_with_app_l _ _ t Hb).
  destruct (starts_with TOOL_OPEN t) eqn:Eo; [|discriminate].
  destruct (find [">"%char] (skipn (length TOOL_OPEN) t)) as [j|] eqn:Ej;
    [|discriminate].
  destruct (find TOOL_CLOSE (skipn (S j) (skipn (length TOOL_OPEN) t)))
    as [k|] eqn:Ek; [|discriminate].
  set (u := skipn (length TOOL_OPEN) b).
  set (v := skipn (length TOOL_OPEN) t) in *.
  assert (Hcut : skipn (length TOOL_OPEN) (b ++ t) = (u ++ TOOL_OPEN) ++ v).
  { rewrite (starts_with_skipn _ _ Hb) at 1. fold u.
    rewrite <- app_assoc, skipn_app_exact.
    rewrite (starts_with_skipn _ _ Eo) at 1. fold v.
    now rewrite app_assoc. }
  rewrite Hcut.
  destruct (find_in_longer [">"%char] (u ++ TOOL_OPEN) v j Ej) as (j' & Hj' & Hle).
  rewrite Hj'.
  destruct (skipn_keeps_suffix (u ++ TOOL_OPEN) v (S j') (S j)) as [x Hx]; [lia|].
  rewrite Hx.
  destruct (find_in_longer TOOL_CLOSE x _ k Ek) as (k' & Hk' & _).
  rewrite Hk'. eauto.
Qed.

(** What the search puts before the tag has no opening marker in it. *)
Lemma search_tag_before_clean (s before_tool after_tool : str) :
  search_tag s = Some (before_tool, after_tool) ->
  contains TOOL_OPEN before_tool = false.
Proof.
  revert before_tool. induction s as [|c s IH]; intros b; cbn [search_tag].
  - destruct (match_tag []); [|discriminate]. intros [= <- <-]. reflexivity.
  - destruct (match_tag (c :: s)) as [n|] eqn:E.
    + intros [= <- <-]. reflexivity.
    + destruct (search_tag s) as [[b' a']|] eqn:Es; [|discriminate].
      intros [= <- <-]. cbn [contains]. rewrite (IH b' eq_refl), orb_false_r.
      destruct (starts_with TOOL_OPEN (c :: b')) eqn:Eb; [|reflexivity].
      destruct (search_tag_split _ _ _ Es) as (t & n & -> & Hm & _).
      destruct (match_tag_earlier (c :: b') t n Eb Hm) as [n' Hn'].
      simpl app in Hn'. congruence.
Qed.

Lemma yield_text_clean (text : str) :
  contains TOOL_OPEN text = false -> Forall clean_event (yield_text text).
Proof.
  intros Hc. unfold yield_text. destruct text as [|c text]; simpl; [constructor|].
  repeat constructor; [discriminate|exact Hc].
Qed.

Lemma demux_clean (fuel : nat) (buf : str) evs left :
  demux fuel buf = Some (evs, left) -> Forall clean_event evs /\ held left.
Proof.
  revert buf evs left. induction fuel as [|fuel IH]; intros buf evs left; [discriminate|].
  simpl. destruct (contains TOOL_OPEN buf) eqn:Eo; simpl.
  - destruct (contains TOOL_CLOSE buf).
    + destruct (search_tag buf) as [[b a]|] eqn:Es.
      * destruct (demux fuel a) as [[evs' left']|] eqn:Ed; [|discriminate].
        intros [= <- <-]. destruct (IH _ _ _ Ed) as [Hevs Hleft].
        split; [|assumption]. apply Forall_app. split; [|assumption].
        apply yield_text_clean. eapply search_tag_before_clean; eauto.
      * intros [= <- <-]. split; [constructor|now right].
    + intros [= <- <-]. split; [constructor|now right].
  - intros [= <- <-]. split; [now apply yield_text_clean|now left].
Qed.

Lemma process_buffer_clean (buf : str) :
  Forall clean_event (fst (process_buffer buf)) /\ held (snd (process_buffer buf)).
Proof.
  unfold process_buffer.
  destruct (demux_total (S (length buf)) buf ltac:(lia)) as [[evs left] Hd].
  rewrite Hd. eapply demux_clean; eauto.
Qed.

Section BufferFacts.

Context {J : Json}.

Lemma on_data_tidy content tool_calls (r : Round) :
  tidy r -> tidy (on_data content tool_calls r).
Proof.
  intros [Hy Hb]. unfold on_data.
  destruct (nonempty content); [|split; assumption].
  unfold feed. cbn [display_buffer yielded].
  destruct (process_buffer_clean (display_buffer r ++ content)) as [Hevs Hleft].
  destruct (process_buffer (display_buffer r ++ content)) as [evs left].
  split; cbn [display_buffer yielded fst snd] in *; [|assumption].
  apply Forall_app. split; assumption.
Qed.

Lemma finish_tidy (r : Round) : tidy r -> finish r = r.
Proof.
  intros [_ [Hb|Hb]]; unfold finish; rewrite Hb; [reflexivity|].
  now rewrite andb_false_r.
Qed.

Lemma read_lines_tidy lines (r : Round) :
  tidy r -> tidy (fst (read_lines lines r)).
Proof.
  revert r. induction lines as [|[| |content tcs done] lines IH]; intros r Hr;
    cbn [read_lines]; auto.
  pose proof (on_data_tidy content tcs r Hr) as Hr1.
  destruct done; cbn [fst]; [|auto].
  now rewrite finish_tidy.
Qed.

Lemma new_round_tidy : tidy new_round.
Proof. split; [constructor|now left]. Qed.

(** Whatever the lines of a round are, each event yielded while reading
    them is a passthrough event with a non-empty text that does not
    contain the opening marker [<tool_call]. *)
Theorem passthrough_events_are_clean (lines : list Line) :
  Forall (fun e => ev_done e = false /\ ev_content e <> []
                   /\ contains TOOL_OPEN (ev_content e) = false)
         (yielded (fst (read_lines lines new_round))).
Proof. exact (proj1 (read_lines_tidy lines new_round new_round_tidy)). Qed.

(** The flush of the [if done:] block never sends anything: at the end
    of a round the buffer is empty or still holds an opening marker, so
    the round yields the same events whether its last line carries
    [done] or not, and text held back behind an unfinished tag is never
    delivered. *)
Theorem flush_at_done_emits_nothing (lines : list Line) content tool_calls :
  let r := fst (read_lines lines new_round) in
  (display_buffer r = [] \/ contains TOOL_OPEN (display_buffer r) = true)
  /\ finish r = r
  /\ yielded (fst (read_lines (lines ++ [Data content tool_calls true]) new_round))
     = yielded (fst (read_lines (lines ++ [Data content tool_calls false])
                       new_round)).
Proof.
  intros r. pose proof (read_lines_tidy lines new_round new_round_tidy) as Hr.
  split; [exact (proj2 Hr)|]. split; [now apply finish_tidy|].
  clear r Hr. generalize new_round_tidy. generalize (@new_round J).
  induction lines as [|[| |c tcs done] lines IH]; intros r0 Hr0;
    cbn [app read_lines]; auto.
  - cbn [fst]. now rewrite finish_tidy by now apply on_data_tidy.
  - destruct done; [reflexivity|]. apply IH. now apply on_data_tidy.
Qed.

End BufferFacts.

(** ** Inline calls in a longer text *)


Section InlineCalls.

Context {J : Json}.


End InlineCalls.


(** ** A tag that does not decode, followed by one that does *)

Section MalformedThenGood.

Context {J : Json}.



End MalformedThenGood.


(** ** The cache under lookups and stores in any order *)

Module CacheOpsFacts.
Import ResponseCache ResponseCacheFacts CacheOps.

Section WithHash.

Variable md5 : str -> str.

Lemma get_keeps now messages (c : t) :
  max_size (snd (get md5 now messages c)) = max_size c
  /\ ttl_seconds (snd (get md5 now messages c)) = ttl_seconds c
  /\ length (cache (snd (get md5 now messages c))) <= length (cache c)
  /\ (NoDup (keys (cache c)) -> NoDup (keys (cache (snd (get md5 now messages c))))).
Proof.
  unfold get.
  destruct (dict_get (_get_cache_key md5 messages) (cache c)) as [[r ts]|] eqn:E;
    [|cbn [snd]; auto].
  destruct (now - ts <? ttl_seconds c)%Z; cbn [snd]; [auto|].
  unfold with_cache. cbn [cache max_size ttl_seconds]. repeat split.
  - apply dict_get_some_in in E. apply length_dict_del in E. lia.
  - apply NoDup_dict_del.
Qed.

Lemma step_fits (c : t) (o : op) :
  fits c -> fits (step md5 c o) /\ max_size (step md5 c o) = max_size c.
Proof.
  intros Hc. destruct o as [now messages|now messages response]; cbn [step].
  - destruct (get_keeps now messages c) as (Hm & _ & Hlen & Hnd).
    destruct Hc as [Hc1 Hc2]. split; [split|assumption]; [auto|].
    rewrite Hm. lia.
  - now apply do_store_fits.
Qed.

(** Whatever lookups and stores are made, in any order and at any clock
    readings, a cache that starts within its capacity never holds more
    than [max_size] entries, keeps one entry per key, and keeps its
    capacity. *)
Theorem cache_bounded_under_any_use (c : t) (ops : list op) :
  fits c ->
  (Z.of_nat (length (cache (run md5 c ops))) <= max_size c)%Z
  /\ NoDup (keys (cache (run md5 c ops)))
  /\ max_size (run md5 c ops) = max_size c.
Proof.
  unfold run. revert c. induction ops as [|o ops IH]; intros c Hc; cbn [fold_left].
  - destruct Hc. auto.
  - destruct (step_fits c o Hc) as [Hc' Hm].
    destruct (IH _ Hc') as (Hlen & Hnd & Hmax).
    repeat split; [lia|assumption|congruence].
Qed.

End WithHash.

Lemma cache_bounded_under_any_use_witness :
  let ops := [Store 1 [user_says "a"] (lit "A"); Lookup 2 [user_says "a"];
              Store 3 [user_says "b"] (lit "B"); Lookup 9999 [user_says "a"];
              Store 10000 [user_says "c"] (lit "C")] in
  (Z.of_nat (length (cache (run plain_key (init 1 3600) ops))) <= 1)%Z
  /\ NoDup (keys (cache (run plain_key (init 1 3600) ops)))
  /\ max_size (run plain_key (init 1 3600) ops) = 1%Z.
Proof.
  intros ops. apply (cache_bounded_under_any_use plain_key (init 1 3600) ops).
  split; simpl; [constructor|lia].
Defined.

End CacheOpsFacts.

(** ** A whole request *)

Section RequestFacts.

Context {J : Json} {B : Backend}.

Lemma events_app (tr1 tr2 : list Action) :
  events (tr1 ++ tr2) = events tr1 ++ events tr2.
Proof. induction tr1 as [|[m|e|n a] tr1 IH]; simpl; auto. now f_equal. Qed.

Lemma events_yields (evs : list Event) : events (map Yield evs) = evs.
Proof. induction evs; simpl; auto. now f_equal. Qed.

Lemma execute_tools_events_not_done (tool_calls : list ToolCall) msgs (w : World) :
  Forall (fun e => ev_done e = false)
         (events (fst (fst (execute_tools tool_calls msgs w)))).
Proof.
  revert msgs w. induction tool_calls as [|tc rest IH]; intros msgs w.
  - constructor.
  - cbn [execute_tools].
    destruct (call_tool w (name tc) (arguments tc)) as [w1 [result| |error]];
      match goal with
      | |- context [execute_tools rest ?m ?w'] =>
          pose proof (IH m w') as IH';
          destruct (execute_tools rest m w') as [[tr m'] w2]
      end; cbn [fst events] in *; auto.
Qed.

Lemma yielded_not_done lines :
  Forall (fun e => ev_done e = false) (yielded (fst (read_lines lines new_round))).
Proof.
  eapply Forall_impl; [|exact (proj1 (read_lines_tidy lines new_round new_round_tidy))].
  intros e He. exact (proj1 He).
Qed.

(** No event sent from inside the loop is a completion. *)
Lemma loop_events_not_done (fuel : nat) (st : LoopState) (w : World) :
  Forall (fun e => ev_done e = false)
         (events (trace (generation_loop fuel st w))).
Proof.
  revert st w. induction fuel as [|fuel IH]; intros st w; [constructor|].
  cbn [generation_loop].
  destruct (tool_iteration st <? max_tool_iterations); [|constructor].
  destruct (ollama_chat w (formatted_messages st)) as [w1 response].
  pose proof (yielded_not_done (resp_lines response)) as Hy.
  destruct (read_lines (resp_lines response) new_round) as [r broke].
  cbn [fst] in Hy.
  destruct (if broke then None else resp_error response);
    [cbn [trace events]; now rewrite events_yields|].
  destruct (extract_tool_calls r) as [|tc tcs];
    [cbn [trace events]; now rewrite events_yields|].
  pose proof (execute_tools_events_not_done (tc :: tcs) (formatted_messages st) w1)
    as Ht.
  destruct (execute_tools (tc :: tcs) (formatted_messages st) w1) as [[tr2 msgs] w2].
  cbn [fst] in Ht. cbn [trace app events].
  rewrite !events_app, events_yields.
  repeat (apply Forall_app; split); auto.
Qed.

Lemma set_fails_without_capacity md5 now messages response (c : ResponseCache.t) :
  ResponseCache.set md5 now messages response c = None ->
  (ResponseCache.max_size c <= 0)%Z.
Proof.
  unfold ResponseCache.set.
  destruct (Z.leb_spec (ResponseCache.max_size c)
              (Z.of_nat (length (ResponseCache.cache c)))) as [Hfull|_];
    [|discriminate].
  destruct (ResponseCache.cache c) as [|[k [r ts]] d]; [|discriminate].
  intros _. simpl in Hfull. lia.
Qed.

(** Every request ends with a completion event: the events sent are
    passthrough events followed by one event with [done] set, and
    nothing comes after it, except for the error event of a cache store
    that raises, which needs a cache of capacity zero or less. *)
Theorem every_request_ends_with_completion messages cache (w : World) :
  exists pass final rest,
    events (fst (fst (stream_ollama_response messages cache w)))
    = pass ++ final :: rest
    /\ Forall (fun e => ev_done e = false) pass
    /\ ev_done final = true
    /\ (rest = []
        \/ (rest = [{| ev_content :=
                         lit "I apologize, but I encountered an error: "
                         ++ lit "ValueError: min() arg is an empty sequence";
                       ev_done := true |}]
            /\ (ResponseCache.max_size cache <= 0)%Z)).
Proof.
  unfold stream_ollama_response.
  set (st0 := {| formatted_messages := initial_messages messages;
                 tool_iteration := 0; full_response := [] |}).
  pose proof (loop_events_not_done (S max_tool_iterations) st0 w) as Hloop.
  destruct (loop_bounded (S max_tool_iterations) st0 w) as [Hfuel _];
    [cbn [tool_iteration st0]; lia|].
  pose proof (CacheOpsFacts.get_keeps md5_hexdigest (clock w) messages cache)
    as (Hmax & _).
  destruct (find_matching_template (latest_user_msg messages)) as [[|c t]|].
  all: destruct (ResponseCache.get md5_hexdigest (clock w) messages cache)
         as [[[|c' r]|] cache1].
  all: cbn [snd] in Hmax.
  all: destruct (exit (generation_loop (S max_tool_iterations) st0 w)) eqn:Eexit.
  all: try congruence.
  all: try destruct (nonempty _ && nonempty _).
  all: try destruct (ResponseCache.set _ _ _ _ _) eqn:Eset.
  all: cbn [fst]; rewrite ?events_app; cbn [events].
  all: match goal with
       | |- exists _ _ _, [?e] = _ /\ _ => exists [], e, []
       | |- exists _ _ _, ?p ++ [?e] = _ /\ _ => exists p, e, []
       | |- exists _ _ _, ?p ++ [?e1; ?e2] = _ /\ _ => exists p, e1, [e2]
       end.
  all: split; [reflexivity|split; [auto|split; [reflexivity|]]].
  all: try (left; reflexivity).
  all: right; split; [reflexivity|].
  all: apply set_fails_without_capacity in Eset; lia.
Qed.

End RequestFacts.

(** The second case on a run: with a cache of capacity zero the store
    after a plain answer raises, and the error event follows the
    completion event. *)
Example store_error_follows_completion :
  events (fst (fst (stream_ollama_response (B := plain_backend)
                      [user_says "hi"] (ResponseCache.init 0 3600) 0%nat)))
  = [passthrough (lit "Hel"); passthrough (lit "lo"); done_data;
     {| ev_content :=
          lit "I apologize, but I encountered an error: "
          ++ lit "ValueError: min() arg is an empty sequence";
        ev_done := true |}].
Proof. reflexivity. Qed.

Section ConversationFacts.

Context {J : Json} {B : Backend}.

Lemma execute_tools_grows (tool_calls : list ToolCall) msgs (w : World) :
  (exists added, snd (fst (execute_tools tool_calls msgs w)) = msgs ++ added)
  /\ Forall (fun a => forall m, a <> OpenRound m)
            (fst (fst (execute_tools tool_calls msgs w))).
Proof.
  revert msgs w. induction tool_calls as [|tc rest IH]; intros msgs w.
  - split; [exists []; simpl; now rewrite app_nil_r|constructor].
  - cbn [execute_tools].
    destruct (call_tool w (name tc) (arguments tc)) as [w1 [result| |error]];
      match goal with
      | |- context [execute_tools rest ?m ?w'] =>
          destruct (IH m w') as [[added Hadd] Hno];
          destruct (execute_tools rest m w') as [[tr m'] w2]
      end; cbn [fst snd] in *; subst.
    + split; [eexists; now rewrite <- app_assoc|].
      constructor; [discriminate|assumption].
    + split; [eexists; now rewrite <- app_assoc|].
      constructor; [discriminate|assumption].
    + split; [eauto|]. repeat (constructor; [discriminate|]). assumption.
Qed.

(** The conversation only grows: the messages and the text accumulated
    at the end of the loop extend those it started with, the iteration
    count never decreases, and the message list sent with every round
    extends the initial one. *)
Theorem conversation_only_grows (fuel : nat) (st : LoopState) (w : World) :
  let run := generation_loop fuel st w in
  (exists added,
      formatted_messages (final_state run) = formatted_messages st ++ added)
  /\ (exists text, full_response (final_state run) = full_response st ++ text)
  /\ tool_iteration st <= tool_iteration (final_state run)
  /\ Forall (fun a => forall m, a = OpenRound m ->
                      exists added, m = formatted_messages st ++ added)
            (trace run).
Proof.
  cbv zeta. revert st w. induction fuel as [|fuel IH]; intros st w.
  - cbn. repeat split; try (exists []; now rewrite app_nil_r); auto.
  - cbn [generation_loop].
    destruct (tool_iteration st <? max_tool_iterations).
    2:{ cbn. repeat split; try (exists []; now rewrite app_nil_r); auto. }
    destruct (ollama_chat w (formatted_messages st)) as [w1 response].
    destruct (read_lines (resp_lines response) new_round) as [r broke].
    assert (Hfirst : Forall (fun a => forall m, a = OpenRound m ->
                        exists added, m = formatted_messages st ++ added)
                       (OpenRound (formatted_messages st) :: map Yield (yielded r))).
    { constructor.
      - intros m [= <-]. exists []. now rewrite app_nil_r.
      - apply Forall_forall. intros a Ha m ->.
        apply in_map_iff in Ha as (e & He & _). discriminate. }
    destruct (if broke then None else resp_error response).
    { cbn [final_state trace formatted_messages full_response tool_iteration].
      repeat split; eauto. exists []. now rewrite app_nil_r. }
    destruct (extract_tool_calls r) as [|tc tcs].
    { cbn [final_state trace formatted_messages full_response tool_iteration].
      repeat split; eauto. exists []. now rewrite app_nil_r. }
    destruct (execute_tools_grows (tc :: tcs) (formatted_messages st) w1)
      as [[added Hadd] Hno].
    destruct (execute_tools (tc :: tcs) (formatted_messages st) w1)
      as [[tr2 msgs] w2].
    cbn [fst snd] in *. subst msgs.
    match goal with
    | |- context [generation_loop fuel ?st2 w2] =>
        destruct (IH st2 w2) as ([added' Hm] & [text' Ht] & Hcount & Hrounds)
    end.
    cbn [final_state trace formatted_messages full_response tool_iteration] in *.
    repeat split.
    + exists (added ++ added'). now rewrite Hm, app_assoc.
    + eexists. rewrite Ht, <- app_assoc. reflexivity.
    + lia.
    + change (OpenRound (formatted_messages st) :: map Yield (yielded r))
        with ([OpenRound (formatted_messages st)] ++ map Yield (yielded r)) in Hfirst.
      apply Forall_app. split; [exact Hfirst|].
      apply Forall_app. split.
      * eapply Forall_impl; [|exact Hno]. intros a Ha m ->. now destruct (Ha m).
      * eapply Forall_impl; [|exact Hrounds].
        intros a Ha m Heq. destruct (Ha m Heq) as [add ->].
        exists (added ++ add). now rewrite app_assoc.
Qed.

End ConversationFacts.

Section PlainAnswer.

Context {J : Json} {B : Backend}.




End PlainAnswer.


(** ** The reply of the TinyLlama endpoint *)

Lemma find_none_contains (p s : str) : find p s = None -> contains p s = false.
Proof.
  induction s as [|x s IH]; cbn [find contains].
  - destruct (starts_with p []); [discriminate|reflexivity].
  - destruct (starts_with p (x :: s)); [discriminate|].
    destruct (find p s); [discriminate|]. intros _. now rewrite IH.
Qed.

Lemma find_some_here (p s : str) (i : nat) :
  find p s = Some i ->
  starts_with p (skipn i s) = true /\ i + length p <= length s.
Proof.
  revert i. induction s as [|x s IH]; intros i; cbn [find].
  - destruct (starts_with p []) eqn:E; [|discriminate].
    intros [= <-]. split; [exact E|]. destruct p; [simpl; lia|discriminate].
  - destruct (starts_with p (x :: s)) eqn:E.
    + intros [= <-]. split; [exact E|].
      rewrite (starts_with_skipn _ _ E) at 1. rewrite length_app. lia.
    + destruct (find p s) as [j|]; [|discriminate].
      intros [= <-]. destruct (IH j eq_refl). split; [assumption|simpl; lia].
Qed.

Lemma last_piece_clean (fuel : nat) (sep s : str) :
  sep <> [] -> length s < fuel -> contains sep (last_piece fuel sep s) = false.
Proof.
  intros Hsep. revert s. induction fuel as [|fuel IH]; intros s Hfuel; [lia|].
  cbn [last_piece]. destruct (find sep s) as [i|] eqn:E.
  - apply IH. rewrite length_skipn.
    destruct (find_some_here _ _ _ E) as [_ Hle].
    destruct sep; [contradiction|]. simpl in *. lia.
  - now apply find_none_contains.
Qed.

Lemma lstrip_suffix (s : str) : exists u, s = u ++ lstrip s.
Proof.
  induction s as [|c s [u IH]]; [exists []; reflexivity|].
  cbn [lstrip]. destruct (is_space c).
  - exists (c :: u). simpl. now f_equal.
  - exists []. reflexivity.
Qed.

Lemma strip_inside (s : str) : exists u v, s = u ++ strip s ++ v.
Proof.
  unfold strip, rstrip.
  destruct (lstrip_suffix s) as [u Hu].
  destruct (lstrip_suffix (rev (lstrip s))) as [v Hv].
  exists u, (rev v). rewrite <- rev_app_distr, <- Hv, rev_involutive. exact Hu.
Qed.

Lemma strip_clean (p s : str) : contains p s = false -> contains p (strip s) = false.
Proof.
  intros Hs. destruct (strip_inside s) as (u & v & Hsplit).
  rewrite Hsplit in Hs.
  apply contains_app_false in Hs as [_ Hs].
  now apply contains_app_false in Hs as [Hs _].
Qed.

(** The reply kept never contains the role marker [assistant:], and a
    decoded output without the marker is returned as it is, white space
    included. *)
Theorem trimmed_reply_has_no_role_marker (reply : str) :
  contains ROLE_MARK (trim_reply reply) = false
  /\ (contains ROLE_MARK reply = false -> trim_reply reply = reply).
Proof.
  unfold trim_reply. destruct (contains ROLE_MARK reply) eqn:E.
  - split; [|discriminate].
    apply strip_clean. unfold split_last.
    apply last_piece_clean; [discriminate|lia].
  - split; [exact E|reflexivity].
Qed.

Lemma trimmed_reply_has_no_role_marker_witness :
  contains ROLE_MARK (trim_reply (lit "user: hi assistant: a assistant: b ")) = false
  /\ trim_reply (lit " plain reply ") = lit " plain reply ".
Proof.
  split.
  - apply (trimmed_reply_has_no_role_marker
             (lit "user: hi assistant: a assistant: b ")).
  - apply (trimmed_reply_has_no_role_marker (lit " plain reply ")).
    reflexivity.
Defined.

(** A pattern that ends with a character it has nowhere else does not
    match across the start of a copy of itself. *)
Lemma no_match_into_copy (c : ascii) (r a q t : str) :
  ~ In c q -> length a <= length r -> length r < length a + length q ->
  starts_with (r ++ [c]) (a ++ q ++ t) = false.
Proof.
  revert a q. induction r as [|z r IH]; intros a q Hc Ha Hq.
  - destruct a; [|simpl in Ha; lia]. destruct q as [|y q]; [simpl in Hq; lia|].
    simpl. destruct (Ascii.eqb_spec c y) as [->|_]; [|reflexivity].
    exfalso. apply Hc. now left.
  - destruct a as [|x a].
    + destruct q as [|y q]; [simpl in Hq; lia|].
      assert (H : starts_with (r ++ [c]) ([] ++ q ++ t) = false).
      { apply IH; [intros Hin; apply Hc; now right|simpl; lia|simpl in *; lia]. }
      simpl in *. rewrite H. apply andb_false_r.
    + simpl. rewrite (IH a q) by (simpl in *; try lia; assumption).
      apply andb_false_r.
Qed.

Lemma last_piece_after_prompt (fuel : nat) (before answer : str) :
  contains ROLE_MARK answer = false ->
  length (before ++ ROLE_MARK ++ answer) < fuel ->
  last_piece fuel ROLE_MARK (before ++ ROLE_MARK ++ answer) = answer.
Proof.
  intros Hans. revert before.
  induction fuel as [|fuel IH]; intros before Hfuel; [lia|].
  assert (Hlast : forall f, last_piece f ROLE_MARK answer = answer).
  { intros [|f]; [reflexivity|]. cbn [last_piece].
    destruct (find ROLE_MARK answer) as [i|] eqn:E; [|reflexivity].
    apply find_some_here in E as [E _].
    assert (contains ROLE_MARK (skipn i answer) = true) by now apply contains_here.
    rewrite <- (firstn_skipn i answer) in Hans.
    apply contains_app_false in Hans as [_ Hans]. congruence. }
  cbn [last_piece].
  destruct (find_in_longer ROLE_MARK before (ROLE_MARK ++ answer) 0) as (i & Hi & Hle).
  { pose proof (starts_with_app ROLE_MARK answer) as Hs.
    destruct (ROLE_MARK ++ answer) eqn:E; cbn [find]; now rewrite Hs. }
  rewrite Hi. destruct (find_some_here _ _ _ Hi) as [Hhere _].
  destruct (Nat.eq_dec i (length before)) as [->|Hne].
  - rewrite app_assoc, <- length_app, skipn_app_exact. apply Hlast.
  - assert (Hin : i + length ROLE_MARK <= length before).
    { destruct (Nat.le_gt_cases (i + length ROLE_MARK) (length before)) as [|Hover];
        [assumption|exfalso].
      rewrite skipn_app in Hhere.
      replace (i - length before) with 0 in Hhere by lia.
      cbn [skipn] in Hhere.
      change ROLE_MARK with (lit "assistant" ++ [":"%char]) in Hhere at 1.
      change ROLE_MARK with (lit "assistant" ++ [":"%char]) in Hhere.
      rewrite <- app_assoc in Hhere.
      rewrite no_match_into_copy in Hhere; [discriminate| | |].
      - simpl. intuition discriminate.
      - rewrite length_skipn. change (length ROLE_MARK) with 10 in Hover.
        change (length (lit "assistant")) with 9. lia.
      - rewrite length_skipn. change (length (lit "assistant")) with 9. lia. }
    replace (skipn (i + length ROLE_MARK) (before ++ ROLE_MARK ++ answer))
      with (skipn (i + length ROLE_MARK) before ++ ROLE_MARK ++ answer).
    + apply IH. rewrite !length_app, length_skipn in *.
      change (length ROLE_MARK) with 10 in *. lia.
    + rewrite skipn_app.
      replace (i + length ROLE_MARK - length before) with 0 by lia. reflexivity.
Qed.

(** When the decoded output is the prompt followed by an answer that
    does not contain [assistant:], the reply kept is the answer without
    the white space around it, whatever the messages say (also when they
    contain [assistant:] themselves). *)
Theorem reply_after_echoed_prompt (messages : list ChatMessage) (answer : str) :
  contains ROLE_MARK answer = false ->
  trim_reply (build_prompt messages ++ answer) = strip answer.
Proof.
  intros Hans. unfold trim_reply, build_prompt.
  set (before := fold_left _ messages []).
  rewrite <- app_assoc.
  assert (Hc : contains ROLE_MARK (before ++ ROLE_MARK ++ answer) = true).
  { apply contains_app_r, contains_app_l. reflexivity. }
  rewrite Hc. f_equal. unfold split_last.
  apply last_piece_after_prompt; [assumption|lia].
Qed.

Lemma reply_after_echoed_prompt_witness :
  trim_reply (build_prompt [user_says "say assistant: twice"]
              ++ lit " Sure thing. ")
  = lit "Sure thing.".
Proof.
  apply (reply_after_echoed_prompt [user_says "say assistant: twice"]
           (lit " Sure thing. ")).
  reflexivity.
Defined.
